(** * CTC decoding of neural_sp: greedy decoding, beam search and the
      CTC prefix scorer of [neural_sp/models/seq2seq/decoders/ctc.py].

    Log-probabilities are IEEE floats in the source.  The development keeps
    them abstract: a carrier with the operations the decoders use
    (addition, multiplication, [np.logaddexp], the comparison [<] used by
    [sorted], [argmax] and [topk]) and the three constants of the file.
    Every theorem holds for any such carrier; statements that need the
    comparison to be an order say so through [LtLaws].

    A table of log-probabilities is a list of frames, each the list of the
    log-probabilities of the labels; labels are indices.  A method that
    raises returns [None]. *)

From Stdlib Require Import List ZArith Lia Bool Arith PeanoNat Permutation Sorted.
Import ListNotations.

Set Implicit Arguments.

(** ** Numbers *)

Class LogNum (F : Type) : Type := {
  fadd : F -> F -> F;          (* x + y *)
  fmul : F -> F -> F;          (* x * y *)
  logaddexp : F -> F -> F;     (* np.logaddexp *)
  flt : F -> F -> bool;        (* x < y *)
  zero : F;                    (* the literal 0 *)
  LOG_0 : F;                   (* float(np.finfo(np.float32).min) *)
  logzero : F                  (* CTCPrefixScore.logzero = -10000000000.0 *)
}.

Definition LOG_1 {F} `{LogNum F} : F := zero.

(** [<] is a strict weak order (floats without NaN). *)
Class LtLaws (F : Type) `{LogNum F} : Prop := {
  flt_asym : forall x y : F, flt x y = true -> flt y x = false;
  flt_negtrans : forall x y z : F, flt x y = false -> flt y z = false -> flt x z = false
}.
Arguments LtLaws F {_}.

(** The max-plus integers: [logaddexp] is [Z.max].  In float arithmetic
    [np.logaddexp x y] is [max x y + log1p(exp(-|x - y|))], which is exactly
    [max x y] as soon as the two are more than 745 apart ([exp] underflows
    to 0), in particular when one of them carries [LOG_0]. *)
#[export] Instance MaxPlusZ : LogNum Z := {
  fadd := Z.add;
  fmul := Z.mul;
  logaddexp := Z.max;
  flt := Z.ltb;
  zero := 0%Z;
  LOG_0 := (-340282346638528859811704183484516925440)%Z;
  logzero := (-10000000000)%Z
}.

(** ** Sorting as [sorted(l, key=..., reverse=True)] does: stable, descending *)

Section Sorting.
Context {F : Type} `{LogNum F} {A : Type}.
Variable key : A -> F.

Fixpoint insert_desc (x : A) (l : list A) : list A :=
  match l with
  | [] => [x]
  | y :: l' => if flt (key x) (key y) then y :: insert_desc x l' else x :: y :: l'
  end.

Definition sorted_reverse (l : list A) : list A :=
  fold_right insert_desc [] l.

(** Entries whose key is neither below nor above [v]. *)
Definition tied (v : F) (x : A) : bool :=
  negb (flt v (key x)) && negb (flt (key x) v).

(** No earlier entry has a key below a later one. *)
Definition descending (l : list A) : Prop :=
  StronglySorted (fun x y => flt (key x) (key y) = false) l.
End Sorting.

(** ** torch.argmax and torch.topk on one row *)

Section Rows.
Context {F : Type} `{LogNum F}.

(** [row[i]].  An index beyond the row raises in the source; the functions
    below test the indices that can be beyond it. *)
Definition item (row : list F) (i : nat) : F := nth i row zero.

(** [row.argmax(0)]: the index of the first maximal value; an empty row
    raises. *)
Fixpoint argmax_from (best : nat) (bv : F) (i : nat) (row : list F) : nat :=
  match row with
  | [] => best
  | x :: row' =>
      if flt bv x then argmax_from i x (S i) row'
      else argmax_from best bv (S i) row'
  end.

Definition argmax (row : list F) : option nat :=
  match row with
  | [] => None
  | x :: row' => Some (argmax_from 0 x 1 row')
  end.

(** [torch.topk(row, k, largest=True, sorted=True)]: the indices of the [k]
    largest entries, largest first, equal entries by lowest index; [k]
    beyond the row raises. *)
Definition topk (k : nat) (row : list F) : option (list nat) :=
  if k <=? length row
  then Some (firstn k (sorted_reverse (item row) (seq 0 (length row))))
  else None.

(** The order in which [torch.topk] returns equal entries is the
    library's, and [topk] is one choice of it.  What a call guarantees
    whatever that order: [k] beyond the row raises; otherwise it returns
    [k] different indices of the row, no entry below a later one, and no
    entry left out is above one returned. *)
Definition topk_contract (topk_call : nat -> list F -> option (list nat)) : Prop :=
  forall (k : nat) (row : list F),
    (length row < k -> topk_call k row = None) /\
    (k <= length row ->
     exists indices,
       topk_call k row = Some indices /\
       length indices = k /\
       NoDup indices /\
       Forall (fun c => c < length row) indices /\
       descending (item row) indices /\
       forall c d, In c indices -> d < length row -> ~ In d indices ->
                   flt (item row c) (item row d) = false).
End Rows.

(** ** CTC.greedy *)

Section Greedy.
Context {F : Type} `{LogNum F}.
Variable blank : nat.

(** [for t in range(time): indices.append(log_probs[b, t].argmax(0).item())] *)
Definition pick_argmax (acc : option (list nat)) (row : list F) : option (list nat) :=
  match acc, argmax row with
  | Some indices, Some a => Some (indices ++ [a])
  | _, _ => None
  end.

Definition argmax_indices (log_probs : list (list F)) : option (list nat) :=
  fold_left pick_argmax log_probs (Some []).

(** [[x[0] for x in groupby(indices)]]: the iterator remembers the key of
    the group it is in and opens a group when the key changes. *)
Fixpoint groupby_keys (currkey : option nat) (l : list nat) : list nat :=
  match l with
  | [] => []
  | x :: l' =>
      match currkey with
      | Some k => if x =? k then groupby_keys currkey l'
                  else x :: groupby_keys (Some x) l'
      | None => x :: groupby_keys (Some x) l'
      end
  end.

Definition remove_blank (l : list nat) : list nat :=
  filter (fun x => negb (x =? blank)) l.

(** One utterance [b]; [log_probs] is [log_probs[b, 0:elens[b]]]. *)
Definition greedy (log_probs : list (list F)) : option (list nat) :=
  match argmax_indices log_probs with
  | Some indices => Some (remove_blank (groupby_keys None indices))
  | None => None
  end.

(** *** The decoder as the specification words it *)

(** The label with maximum log-probability, ties to the lowest index: the
    first index whose entry no entry of the row exceeds. *)
Definition argmax_spec (row : list F) : option nat :=
  find (fun i => forallb (fun w => negb (flt (item row i) w)) row)
       (seq 0 (length row)).

(** Each run of consecutive repeated labels keeps its first occurrence: a
    label stays when it has no predecessor or differs from it. *)
Definition starts_run (px : option nat * nat) : bool :=
  match fst px with
  | Some p => negb (snd px =? p)
  | None => true
  end.

Definition collapse_spec (l : list nat) : list nat :=
  map snd (filter starts_run (combine (None :: map Some l) l)).

Definition greedy_spec (log_probs : list (list F)) : list nat :=
  filter (fun x => negb (x =? blank))
    (collapse_spec
       (map (fun row => match argmax_spec row with Some a => a | None => 0 end)
            log_probs)).

(** The label [i] dominates the frame: every other label is below it. *)
Definition dominates (row : list F) (i : nat) : Prop :=
  i < length row /\
  forall j, j < length row -> j <> i -> flt (item row j) (item row i) = true.

(** A frame has one dominant label. *)
Definition dominant (row : list F) : Prop := exists i, dominates row i.

(** The key the [groupby] iterator holds after the labels [l]. *)
Definition key_after (k : option nat) (l : list nat) : option nat :=
  match l with
  | [] => k
  | _ :: _ => Some (last l 0)
  end.

Fixpoint adjacent_equal (l : list nat) : bool :=
  match l with
  | x :: (y :: _) as l' => (x =? y) || adjacent_equal l'
  | _ => false
  end.
End Greedy.

(** ** CTC.beam_search *)

(** [lm_usage]: ['rescoring'], ['shallow_fusion'], or any other string. *)
Inductive LmUsage : Type := Rescoring | ShallowFusion | OtherUsage.

Section BeamSearch.
Context {F : Type} `{LogNum F}.

(** The language model, as far as the decoder reads it:
    [F.log_softmax(lm.generate(lm.decode(lm.encode(c), (hxs, cxs))[0]))[0, 0, c]]
    and the summed log-softmax over a whole label sequence. *)
Record LM : Type := {
  lm_label_score : nat -> option (list F) -> option (list F) -> F;
  lm_sequence_score : list nat -> F
}.

(** An element of the beam.  The first beam element is built without a
    ['score'] and the rescored ones keep only ['hyp'] and ['score']; the
    fields the source leaves out are never read, and hold [LOG_1] or the
    value of the element they were made from here. *)
Record entry : Type := {
  hyp : list nat;
  score : F;
  p_b : F;
  p_nb : F;
  clm_score : F;
  clm_hxs : option (list F);
  clm_cxs : option (list F)
}.

Variables eos blank : nat.             (* self.eos, self.blank *)
Variable vocab : nat.                  (* bs, _, vocab = eouts.size() *)
Variable beam_width : nat.
Variable lm : option LM.
Variable lm_weight : F.
Variable lm_usage : LmUsage.

Definition initial_beam : list entry :=
  [ {| hyp := [eos]; score := LOG_1; p_b := LOG_1; p_nb := LOG_0;
       clm_score := LOG_1; clm_hxs := None; clm_cxs := None |} ].

(** [hyp[-1]] *)
Definition last_label (h : list nat) : nat := last h 0.

(** case 1. hyp is not extended *)
Definition not_extended (row : list F) (e : entry) : entry :=
  let new_p_b := logaddexp (fadd (p_b e) (item row blank))
                           (fadd (p_nb e) (item row blank)) in
  let new_p_nb := if 1 <? length (hyp e)
                  then fadd (p_nb e) (item row (last_label (hyp e)))
                  else LOG_0 in
  {| hyp := hyp e;
     score := fadd (logaddexp new_p_b new_p_nb) (fmul (clm_score e) lm_weight);
     p_b := new_p_b;
     p_nb := new_p_nb;
     clm_score := clm_score e;
     clm_hxs := clm_hxs e;
     clm_cxs := clm_cxs e |}.

(** [lm_weight > 0 and lm is not None and lm_usage == usage] *)
Definition lm_enabled (usage : LmUsage) : option LM :=
  if flt zero lm_weight then
    match lm with
    | Some m =>
        match lm_usage, usage with
        | ShallowFusion, ShallowFusion => Some m
        | Rescoring, Rescoring => Some m
        | _, _ => None
        end
    | None => None
    end
  else None.

(** case 2. hyp is extended: the element appended for the label [c], with
    [clm] the value of [clm_score] at the append. *)
Definition extended (row : list F) (e : entry) (clm : F) (c : nat) : entry :=
  let p_t := item row c in
  let new_p_b := LOG_0 in
  let last_token := if 1 <? length (hyp e)
                    then Some (last_label (hyp e)) else None in
  let new_p_nb :=
    match last_token with
    | Some l =>
        if c =? l then fadd (p_b e) p_t
        else logaddexp (fadd (p_b e) p_t) (fadd (p_nb e) p_t)
    | None => logaddexp (fadd (p_b e) p_t) (fadd (p_nb e) p_t)
    end in
  {| hyp := hyp e ++ [c];
     score := fadd (logaddexp new_p_b new_p_nb) (fmul clm lm_weight);
     p_b := new_p_b;
     p_nb := new_p_nb;
     clm_score := clm;
     clm_hxs := clm_hxs e;
     clm_cxs := clm_cxs e |}.

(** The body of [for c in indices_topk], on the loop's variables
    [clm_score] and [new_beam].  The branch [if c == self.space: pass]
    does nothing and is left out. *)
Definition extend_with (row : list F) (e : entry)
           (st : F * list entry) (c : nat) : F * list entry :=
  if c =? blank then st
  else
    let clm := match lm_enabled ShallowFusion with
               | Some m => lm_label_score m c (clm_hxs e) (clm_cxs e)
               | None => fst st
               end in
    (clm, snd st ++ [extended row e clm c]).

(** The body of [for i_beam in range(len(beam))]. *)
Definition expand (row : list F) (indices_topk : list nat)
           (new_beam : list entry) (e : entry) : list entry :=
  snd (fold_left (extend_with row e) indices_topk
                 (clm_score e, new_beam ++ [not_extended row e])).

Definition candidates (row : list F) (indices_topk : list nat)
           (beam : list entry) : list entry :=
  fold_left (expand row indices_topk) beam [].

(** The body of [for t in range(elens[b])]; [row] is [log_probs[b, t]].
    [topk] is taken first; then every hypothesis of the beam reads
    [log_probs[b, t, self.blank]], which raises when blank is not a label
    of the frame.  The other labels read are [hyp[-1]] and [c], both taken
    from a top-k of the table, whose frames have one size in the source. *)
Definition step (beam : list entry) (row : list F) : option (list entry) :=
  match topk (min beam_width vocab) row with
  | Some indices_topk =>
      if (blank <? length row) || (length beam =? 0)
      then Some (firstn beam_width
                   (sorted_reverse score (candidates row indices_topk beam)))
      else None
  | None => None
  end.

Fixpoint time_loop (beam : list entry) (log_probs : list (list F))
  : option (list entry) :=
  match log_probs with
  | [] => Some beam
  | row :: rest =>
      match step beam row with
      | Some beam' => time_loop beam' rest
      | None => None
      end
  end.

(** Rescoing lattice *)
Definition rescored (m : LM) (e : entry) : entry :=
  {| hyp := hyp e;
     score := fadd (logaddexp (p_b e) (p_nb e))
                   (fmul (lm_sequence_score m (eos :: hyp e)) lm_weight);
     p_b := p_b e; p_nb := p_nb e; clm_score := clm_score e;
     clm_hxs := clm_hxs e; clm_cxs := clm_cxs e |}.

Definition rescoring (beam : list entry) : list entry :=
  match lm_enabled Rescoring with
  | Some m =>
      sorted_reverse score
        (fold_left (fun new_beam e => new_beam ++ [rescored m e]) beam [])
  | None => beam
  end.

(** The beam at the end of the utterance.  [length_penalty] is an
    argument of the method; its body does not read it. *)
Definition final_beam (length_penalty : F) (log_probs : list (list F))
  : option (list entry) :=
  match time_loop initial_beam log_probs with
  | Some beam => Some (rescoring beam)
  | None => None
  end.

(** The label sequence starts with the start-of-sentence label and has no
    blank after it. *)
Definition blank_free (e : entry) : Prop :=
  exists labels, hyp e = eos :: labels /\ ~ In blank labels.

(** One utterance [b]; [log_probs] is [log_probs[b, 0:elens[b]]].
    [beam[0]] of an empty beam raises. *)
Definition beam_search (length_penalty : F) (log_probs : list (list F))
  : option (list nat) :=
  match final_beam length_penalty log_probs with
  | Some (best :: _) => Some (tl (hyp best))
  | _ => None
  end.

(** *** The same method over any [torch.topk]

    The method with the call of [torch.topk] as a parameter [topk_call]:
    [step], [time_loop], [final_beam] and [beam_search] are these at [topk].
    The labels [c] read in [log_probs[b, t, c]] are those the call returns,
    labels of the frame for a call that keeps [topk_contract]. *)
Definition step_on (topk_call : nat -> list F -> option (list nat))
           (beam : list entry) (row : list F) : option (list entry) :=
  match topk_call (min beam_width vocab) row with
  | Some indices_topk =>
      if (blank <? length row) || (length beam =? 0)
      then Some (firstn beam_width
                   (sorted_reverse score (candidates row indices_topk beam)))
      else None
  | None => None
  end.

Fixpoint time_loop_on (topk_call : nat -> list F -> option (list nat))
         (beam : list entry) (log_probs : list (list F))
  : option (list entry) :=
  match log_probs with
  | [] => Some beam
  | row :: rest =>
      match step_on topk_call beam row with
      | Some beam' => time_loop_on topk_call beam' rest
      | None => None
      end
  end.

Definition final_beam_on (topk_call : nat -> list F -> option (list nat))
           (length_penalty : F) (log_probs : list (list F))
  : option (list entry) :=
  match time_loop_on topk_call initial_beam log_probs with
  | Some beam => Some (rescoring beam)
  | None => None
  end.

Definition beam_search_on (topk_call : nat -> list F -> option (list nat))
           (length_penalty : F) (log_probs : list (list F))
  : option (list nat) :=
  match final_beam_on topk_call length_penalty log_probs with
  | Some (best :: _) => Some (tl (hyp best))
  | _ => None
  end.

(** *** The paths of a time step

    A path takes one hypothesis [e] of the beam and either leaves it
    unextended or extends it by one label [c] of the top-k that is not the
    blank. *)

(** The value of [clm_score] when the extension of [e] by [c] is appended:
    the score of the language model on [c] under shallow fusion, the
    [clm_score] of [e] otherwise. *)
Definition clm_of (e : entry) (c : nat) : F :=
  match lm_enabled ShallowFusion with
  | Some m => lm_label_score m c (clm_hxs e) (clm_cxs e)
  | None => clm_score e
  end.

(** One hypothesis for every path, each with the masses of that path
    alone, in the order of the two loops. *)
Definition paths (row : list F) (indices_topk : list nat) (beam : list entry)
  : list entry :=
  flat_map
    (fun e =>
       not_extended row e ::
       map (fun c => extended row e (clm_of e c) c)
           (filter (fun c => negb (c =? blank)) indices_topk))
    beam.

(** The number of hypotheses of [l] whose label sequence is [h]. *)
Definition times (h : list nat) (l : list entry) : nat :=
  count_occ (list_eq_dec Nat.eq_dec) (map hyp l) h.
End BeamSearch.

(** ** CTCPrefixScore *)

Section Arrays.
Context {A : Type}.

(** [l[t] = f(l[t])] *)
Fixpoint update (l : list A) (t : nat) (f : A -> A) : list A :=
  match l, t with
  | [], _ => []
  | x :: l', 0 => f x :: l'
  | x :: l', S t' => x :: update l' t' f
  end.
End Arrays.

Section PrefixScore.
Context {F : Type} `{LogNum F}.

Variable log_probs : list (list F).    (* self.log_probs, [xlen, vocab] *)
Variables blank eos : nat.             (* self.blank, self.eos *)

Definition xlen : nat := length log_probs.

(** [self.log_probs[t, c]] *)
Definition log_prob (t c : nat) : F := item (nth t log_probs []) c.

(** A CTC state [r]: row [t] is [(r[t, 0], r[t, 1])], non-blank and blank. *)
Definition state : Type := list (F * F).

Definition row_of (r : state) (t : nat) : F * F := nth t r (logzero, logzero).

(** The labels [cs] are labels of every frame from [t] on. *)
Definition in_frames (t : nat) (cs : list nat) : bool :=
  forallb (fun row => forallb (fun c => c <? length row) cs) (skipn t log_probs).

(** [r[0, 1]] of an empty table raises, and so does [log_probs[i, blank]]
    when blank is not a label of frame [i]. *)
Definition initial_state : option state :=
  let r := repeat (logzero, logzero) xlen in
  match xlen with
  | 0 => None
  | S _ =>
      if in_frames 0 [blank] then
        let r := update r 0 (fun p => (fst p, log_prob 0 blank)) in
        Some (fold_left
                (fun r i =>
                   update r i
                     (fun p => (fst p, fadd (snd (row_of r (i - 1))) (log_prob i blank))))
                (seq 1 (xlen - 1)) r)
      else None
  end.

(** [log_probs[0, blank] + ... + log_probs[t, blank]], summed from the left. *)
Definition blank_prefix_sum (t : nat) : F :=
  fold_left fadd (map (fun i => log_prob i blank) (seq 1 t)) (log_prob 0 blank).

(** Element-wise operations on the label axis. *)
Definition vmap2 (f : F -> F -> F) (u v : list F) : list F :=
  map (fun p => f (fst p) (snd p)) (combine u v).

(** The new states [r]: row [t] is [(r[t, 0], r[t, 1])], each of size
    [len(cs)]. *)
Definition states : Type := list (list F * list F).

Definition srow (r : states) (t : nat) : list F * list F := nth t r ([], []).

(** [log_psi[eos_pos] = v] *)
Definition set_eos (cs : list nat) (v : F) (log_psi : list F) : list F :=
  map (fun p => if fst p =? eos then v else snd p) (combine cs log_psi).

(** [np.rollaxis(r, 2)]: the label axis first. *)
Definition rollaxis (n : nat) (r : states) : list state :=
  map (fun i => map (fun row => (nth i (fst row) zero, nth i (snd row) zero)) r)
      (seq 0 n).

Section Call.
Variable uninit : nat -> nat -> nat -> F.  (* what [np.ndarray] finds in memory *)
Variable hyp : list nat.
Variable cs : list nat.
Variable r_prev : state.

Definition ylen : nat := length hyp - 1.
Definition xs (t : nat) : list F := map (log_prob t) cs.
Definition r_sum (t : nat) : F :=
  logaddexp (fst (row_of r_prev t)) (snd (row_of r_prev t)).
Definition last_of_hyp : nat := last hyp 0.
Definition start : nat := max ylen 1.

Definition r_alloc : states :=
  map (fun t => (map (uninit t 0) (seq 0 (length cs)),
                 map (uninit t 1) (seq 0 (length cs))))
      (seq 0 xlen).

Definition r_init : states :=
  if ylen =? 0
  then update r_alloc 0 (fun _ => (xs 0, repeat logzero (length cs)))
  else update r_alloc (ylen - 1)
         (fun _ => (repeat logzero (length cs), repeat logzero (length cs))).

(** [log_phi[t]], broadcast to the label axis when it is [r_sum]. *)
Definition log_phi (t : nat) : list F :=
  if (0 <? ylen) && existsb (Nat.eqb last_of_hyp) cs
  then map (fun c => if negb (c =? last_of_hyp) then r_sum t
                     else snd (row_of r_prev t)) cs
  else repeat (r_sum t) (length cs).

(** The body of [for t in range(start, self.xlen)], on [r] and [log_psi]. *)
Definition forward (st : states * list F) (t : nat) : states * list F :=
  let r := fst st in
  let r := update r t
             (fun row => (vmap2 fadd (vmap2 logaddexp (fst (srow r (t - 1)))
                                                      (log_phi (t - 1)))
                                     (xs t),
                          snd row)) in
  let r := update r t
             (fun row => (fst row,
                          map (fun v => fadd v (log_prob t blank))
                              (vmap2 logaddexp (fst (srow r (t - 1)))
                                               (snd (srow r (t - 1)))))) in
  (r, vmap2 logaddexp (snd st) (vmap2 fadd (log_phi (t - 1)) (xs t))).

(** The state of the loop after the frames [start .. start + k - 1]. *)
Definition forward_inv (k : nat) (st : states * list F) : Prop :=
  length (fst st) = xlen /\
  length (snd st) = length cs /\
  (forall t, start - 1 <= t -> t < start + k ->
             length (fst (srow (fst st) t)) = length cs) /\
  (forall t, start <= t -> t < start + k ->
     fst (srow (fst st) t) =
     vmap2 fadd (vmap2 logaddexp (fst (srow (fst st) (t - 1))) (log_phi (t - 1)))
                (xs t)).

(** The blank track after the frames [start .. start + k - 1]. *)
Definition forward_inv_blank (k : nat) (st : states * list F) : Prop :=
  (forall t, start - 1 <= t -> t < start + k ->
             length (snd (srow (fst st) t)) = length cs) /\
  (forall t, start <= t -> t < start + k ->
     snd (srow (fst st) t) =
     map (fun v => fadd v (log_prob t blank))
         (vmap2 logaddexp (fst (srow (fst st) (t - 1)))
                          (snd (srow (fst st) (t - 1))))).

(** [log_psi] after the frames of [ts], from [log_psi]. *)
Definition psi_loop (ts : list nat) (log_psi : list F) : list F :=
  fold_left (fun psi t => vmap2 logaddexp psi (vmap2 fadd (log_phi (t - 1)) (xs t)))
            ts log_psi.

(** [__call__].  An empty [hyp], a table shorter than the prefix and an
    empty table raise; so do [log_probs[:, cs]] when a candidate is not a
    label of a frame and [log_probs[t, blank]] in the loop when blank is
    not one.  [r_prev] is taken of [xlen] rows, as [initial_state] and
    [__call__] make it; any other is refused here.  When the loop runs no
    step, [log_psi] is still the view [r[start - 1, 0]], and writing the
    end-of-sentence entries writes them into [r]. *)
Definition call : option (list F * list state) :=
  match hyp with
  | [] => None
  | _ :: _ =>
      if (start <=? xlen) && (length r_prev =? xlen)
         && in_frames 0 cs && in_frames start [blank] then
        let log_psi := fst (srow r_init (start - 1)) in
        let st := fold_left forward (seq start (xlen - start)) (r_init, log_psi) in
        let has_eos := existsb (Nat.eqb eos) cs in
        let log_psi' := if has_eos then set_eos cs (r_sum (xlen - 1)) (snd st)
                        else snd st in
        let r := if has_eos && (xlen <=? start)
                 then update (fst st) (start - 1) (fun row => (log_psi', snd row))
                 else fst st in
        Some (log_psi', rollaxis (length cs) r)
      else None
  end.
End Call.
End PrefixScore.

(** ** CTC.__init__: the layers before the softmax *)

Section OutputLayers.
(** An [OrderedDict]: [od[k] = v] replaces the value of a key that is
    there and adds a new key at the end. *)
Fixpoint od_set {V : Type} (od : list (nat * V)) (k : nat) (v : V)
  : list (nat * V) :=
  match od with
  | [] => [(k, v)]
  | (k', v') :: od' =>
      if k' =? k then (k, v) :: od' else (k', v') :: od_set od' k v
  end.

Variables enc_n_units vocab : nat.
Variable fc_list : list nat.

(** [fc_layers]: the key ['fc' + str(i)] is [i], and
    [LinearND(input_dim, output_dim)] the pair of its two sizes. *)
Definition fc_layers : list (nat * (nat * nat)) :=
  od_set
    (fold_left
       (fun od i =>
          let input_dim := if i =? 0 then enc_n_units else nth (i - 1) fc_list 0 in
          od_set od i (input_dim, nth i fc_list 0))
       (seq 0 (length fc_list)) [])
    (length fc_list) (last fc_list 0, vocab).

(** The layers of [self.output], in the order [nn.Sequential] applies
    them. *)
Definition output_layers : list (nat * nat) :=
  if 0 <? length fc_list then map snd fc_layers
  else [(enc_n_units, vocab)].
End OutputLayers.

(** Layers that take an input of size [d_in] to an output of size [d_out],
    each fed the output of the one before. *)
Fixpoint chained (d_in : nat) (layers : list (nat * nat)) (d_out : nat) : Prop :=
  match layers with
  | [] => d_in = d_out
  | (i, o) :: rest => i = d_in /\ chained o rest d_out
  end.

(** The sizes of the layers, written by recursion on [fc_list]. *)
Fixpoint layer_sizes (d : nat) (fc_list : list nat) (vocab : nat)
  : list (nat * nat) :=
  match fc_list with
  | [] => [(d, vocab)]
  | f :: rest => (d, f) :: layer_sizes f rest vocab
  end.

(** ** decode_hierarchical.decode: a transcript after [glm.fix_trans]

    A string is the list of the code points of its characters. *)

Section Transcripts.
Definition NOISE : list nat := [78; 90].                      (* 'NZ' *)
Definition LAUGHTER : list nat := [76; 65].                   (* 'LA' *)
Definition VOCALIZED_NOISE : list nat := [86; 78].            (* 'VN' *)
Definition HESITATION : list nat :=                           (* '%hesitation' *)
  [37; 104; 101; 115; 105; 116; 97; 116; 105; 111; 110].

Fixpoint starts_with (old s : list nat) : bool :=
  match old, s with
  | [], _ => true
  | _ :: _, [] => false
  | a :: old', c :: s' => (a =? c) && starts_with old' s'
  end.

(** [s.replace(old, '')] for an [old] of one character or more: the
    occurrences of [old] are found from the left and do not overlap;
    [skip] counts the characters of the occurrence found that are still to
    pass. *)
Fixpoint remove_from (old : list nat) (skip : nat) (s : list nat) : list nat :=
  match s with
  | [] => []
  | c :: s' =>
      match skip with
      | 0 => if starts_with old s then remove_from old (length old - 1) s'
             else c :: remove_from old 0 s'
      | S k => remove_from old k s'
      end
  end.

Definition str_remove (old s : list nat) : list nat := remove_from old 0 s.

(** [re.sub(r'[...]+', repl, s)] for a class of characters: every longest
    run of characters of the class becomes [repl]. *)
Fixpoint sub_runs (cls : nat -> bool) (repl : list nat) (in_run : bool)
         (s : list nat) : list nat :=
  match s with
  | [] => []
  | c :: s' =>
      if cls c then
        if in_run then sub_runs cls repl true s'
        else repl ++ sub_runs cls repl true s'
      else c :: sub_runs cls repl false s'
  end.

Definition re_sub_class (cls : nat -> bool) (repl s : list nat) : list nat :=
  sub_runs cls repl false s.

(** The class [[\'-<>]]: the characters from ['] (39) to [<] (60), and [>]
    (62). *)
Definition garbage (c : nat) : bool :=
  ((39 <=? c) && (c <=? 60)) || (c =? 62).

(** The class [[_]]. *)
Definition underscore (c : nat) : bool := c =? 95.

(** [if len(s) > 0 and s[0] == '_': s = s[1:]] *)
Definition strip_first (s : list nat) : list nat :=
  match s with
  | c :: s' => if c =? 95 then s' else s
  | [] => []
  end.

(** [if len(s) > 0 and s[-1] == '_': s = s[:-1]] *)
Definition strip_last (s : list nat) : list nat :=
  match s with
  | _ :: _ => if last s 0 =? 95 then removelast s else s
  | [] => []
  end.

(** What [decode] does to each of [str_true], [str_pred] and
    [str_pred_sub] between [glm.fix_trans] and the print. *)
Definition postprocess (s : list nat) : list nat :=
  let s := str_remove NOISE s in
  let s := str_remove LAUGHTER s in
  let s := str_remove VOCALIZED_NOISE s in
  let s := str_remove HESITATION s in
  let s := re_sub_class garbage [] s in
  let s := re_sub_class underscore [95] s in
  let s := strip_first s in
  strip_last s.

Fixpoint adjacent_underscores (s : list nat) : bool :=
  match s with
  | c :: (d :: _) as s' => ((c =? 95) && (d =? 95)) || adjacent_underscores s'
  | _ => false
  end.

(** [out] is [s] with some characters deleted. *)
Inductive subseq : list nat -> list nat -> Prop :=
| subseq_nil : subseq [] []
| subseq_skip (c : nat) (out s : list nat) : subseq out s -> subseq out (c :: s)
| subseq_keep (c : nat) (out s : list nat) : subseq out s -> subseq (c :: out) (c :: s).
End Transcripts.

(** ** Scenarios over blank = 0, A = 1 and start/end of sentence = 2,
       in the max-plus integers

    Each frame is the log-softmax of itself in float arithmetic (one label
    at 0, the others so far below that their probabilities vanish next to
    1), and in every [np.logaddexp] the decoders take on these frames the
    correction [log1p(exp(-|x - y|))] is 0 or lost in rounding: floats
    compute the integers below. *)

(** One frame: blank. *)
Definition frame_blank : list Z := [0; -800; -900]%Z.

(** Three frames: A, blank, A. *)
Definition frames_A_blank_A : list (list Z) :=
  [ [-800; 0; -900]; [0; -800; -900]; [-800; 0; -900] ]%Z.

(** The state of the empty prefix on [frames_A_blank_A]. *)
Definition state_A_blank_A : list (Z * Z) :=
  [ (-10000000000, -800); (-10000000000, -800); (-10000000000, -1600) ]%Z.

(** Two frames: blank, then A. *)
Definition frames_blank_A : list (list Z) :=
  [ [0; -800; -900]; [-1000; 0; -900] ]%Z.

(** Two frames: blank, then A, the blank of the second frame as likely as
    the A of the first. *)
Definition frames_blank_A_tied : list (list Z) :=
  [ [0; -800; -900]; [-800; 0; -900] ]%Z.

(** The second frame of [frames_blank_A]: A. *)
Definition frame_A : list Z := [-1000; 0; -900]%Z.

(** The beam of two after the first frame of [frames_blank_A]: [sos] left
    unextended, and [sos] extended by A. *)
Definition beam_after_blank : list (entry (F := Z)) :=
  [ {| hyp := [2]; score := 0%Z; p_b := 0%Z; p_nb := LOG_0;
       clm_score := 0%Z; clm_hxs := None; clm_cxs := None |};
    {| hyp := [2; 1]; score := (-800)%Z; p_b := LOG_0; p_nb := (-800)%Z;
       clm_score := 0%Z; clm_hxs := None; clm_cxs := None |} ].

(** A language model for the scenarios: it scores the label A 7 and every
    other 0, and a sequence by its length. *)
Definition lm_A : LM (F := Z) :=
  {| lm_label_score := fun c _ _ => if c =? 1 then 7%Z else 0%Z;
     lm_sequence_score := fun l => Z.of_nat (length l) |}.

(** * Theorems *)

(** ** The comparison *)

Section LtFacts.
Context {F : Type} `{LtLaws F}.

Lemma flt_irrefl (x : F) : flt x x = false.
Proof.
  destruct (flt x x) eqn:E; [|reflexivity].
  pose proof (flt_asym _ _ E) as E'. congruence.
Qed.

Lemma flt_below_max (b w x : F) :
  flt b w = false -> flt b x = true -> flt w x = true.
Proof.
  intros Hbw Hbx. destruct (flt w x) eqn:E; [reflexivity|].
  rewrite (flt_negtrans _ _ _ Hbw E) in Hbx. discriminate.
Qed.

Lemma flt_trans (x y z : F) :
  flt x y = true -> flt y z = true -> flt x z = true.
Proof.
  intros Hxy Hyz. apply flt_below_max with (b := y); [|exact Hyz].
  apply flt_asym; exact Hxy.
Qed.
End LtFacts.

#[export] Instance MaxPlusZ_laws : LtLaws Z.
Proof.
  split; cbn; intros; rewrite ?Z.ltb_lt, ?Z.ltb_ge in *; lia.
Qed.

(** ** Greedy decoding *)

Section GreedyFacts.
Context {F : Type} `{LogNum F}.

Lemma find_first_from (P : nat -> bool) (a : nat) :
  P a = true ->
  forall n s, s <= a < s + n -> (forall j, s <= j < a -> P j = false) ->
              find P (seq s n) = Some a.
Proof.
  intros Pa. induction n as [|n IH]; intros s Hsa Hlt; [lia|].
  cbn. destruct (Nat.eq_dec s a) as [->|Hne].
  - rewrite Pa. reflexivity.
  - rewrite Hlt by lia. apply IH; [lia|]. intros j Hj. apply Hlt. lia.
Qed.

Lemma find_first (P : nat -> bool) (n a : nat) :
  a < n -> P a = true -> (forall j, j < a -> P j = false) ->
  find P (seq 0 n) = Some a.
Proof.
  intros Han Pa Hlt. apply find_first_from; [exact Pa|lia|].
  intros j Hj. apply Hlt. lia.
Qed.

Lemma argmax_indices_acc (log_probs : list (list F)) :
  Forall (fun row => row <> []) log_probs ->
  forall acc,
    fold_left pick_argmax log_probs (Some acc) =
    Some (acc ++ map (fun row => match argmax row with Some a => a | None => 0 end)
                     log_probs).
Proof.
  induction 1 as [|row rows Hrow _ IH]; intros acc; cbn.
  - now rewrite app_nil_r.
  - destruct row as [|x row]; [congruence|]. cbn.
    rewrite IH, <- app_assoc. reflexivity.
Qed.

Lemma groupby_keys_collapse (l : list nat) :
  forall k, groupby_keys k l =
            map snd (filter starts_run (combine (k :: map Some l) l)).
Proof.
  induction l as [|x l IH]; intros k; [reflexivity|].
  cbn [groupby_keys map combine filter].
  destruct k as [p|]; unfold starts_run at 1; cbn [fst snd].
  - destruct (x =? p) eqn:E; cbn [negb map snd].
    + apply Nat.eqb_eq in E. subst p. apply IH.
    + f_equal. apply IH.
  - cbn [map snd]. f_equal. apply IH.
Qed.

Lemma groupby_keys_no_adjacent (l : list nat) :
  forall k,
    adjacent_equal (groupby_keys k l) = false /\
    (forall p, k = Some p -> hd_error (groupby_keys k l) <> Some p).
Proof.
  induction l as [|x l IH]; intros k.
  - split; [reflexivity|]. intros p _. discriminate.
  - assert (Hcons : adjacent_equal (x :: groupby_keys (Some x) l) = false).
    { destruct (IH (Some x)) as [Hadj Hhd]. specialize (Hhd x eq_refl).
      destruct (groupby_keys (Some x) l) as [|y g] eqn:E; [reflexivity|].
      cbn in Hhd. cbn [adjacent_equal].
      destruct (x =? y) eqn:Exy.
      - apply Nat.eqb_eq in Exy. subst y. congruence.
      - exact Hadj. }
    cbn [groupby_keys]. destruct k as [p|].
    + destruct (x =? p) eqn:E.
      * apply IH.
      * split; [exact Hcons|]. intros q [= <-]. cbn. intros [= ->].
        rewrite Nat.eqb_refl in E. discriminate.
    + split; [exact Hcons|]. intros p. discriminate.
Qed.

Lemma remove_blank_no_blank (blank : nat) (l : list nat) :
  ~ In blank (remove_blank blank l).
Proof.
  unfold remove_blank. rewrite filter_In. intros [_ Hb].
  rewrite Nat.eqb_refl in Hb. discriminate.
Qed.

Lemma dominant_nonempty (row : list F) : dominant row -> row <> [].
Proof.
  intros [i [Hi _]] ->. cbn in Hi. lia.
Qed.
End GreedyFacts.

Section ArgmaxFacts.
Context {F : Type} `{LtLaws F}.

Lemma argmax_from_max (row rest : list F) :
  forall best i,
    i + length rest = length row ->
    (forall k, k < length rest -> nth k rest zero = item row (i + k)) ->
    best < i ->
    (forall j, j < i -> flt (item row best) (item row j) = false) ->
    (forall j, j < best -> flt (item row j) (item row best) = true) ->
    let a := argmax_from best (item row best) i rest in
    a < length row /\
    (forall j, j < length row -> flt (item row a) (item row j) = false) /\
    (forall j, j < a -> flt (item row j) (item row a) = true).
Proof.
  induction rest as [|x rest IH]; intros best i Hlen Hnth Hbest Hmax Hfirst; cbn.
  - cbn in Hlen. repeat split; [lia| |exact Hfirst].
    intros j Hj. apply Hmax. lia.
  - cbn in Hlen.
    assert (Hx : x = item row i).
    { specialize (Hnth 0). cbn in Hnth. rewrite Nat.add_0_r in Hnth.
      apply Hnth. lia. }
    assert (Hrest : forall k, k < length rest ->
                              nth k rest zero = item row (S i + k)).
    { intros k Hk. specialize (Hnth (S k)). cbn in Hnth.
      rewrite Hnth by lia. f_equal. lia. }
    destruct (flt (item row best) x) eqn:E.
    + rewrite Hx. apply IH; try lia; try assumption.
      * intros j Hj. destruct (Nat.eq_dec j i) as [->|Hne].
        -- apply flt_irrefl.
        -- apply flt_asym. rewrite <- Hx.
           apply flt_below_max with (b := item row best); [|exact E].
           apply Hmax. lia.
      * intros j Hj. rewrite <- Hx.
        apply flt_below_max with (b := item row best); [|exact E].
        apply Hmax. exact Hj.
    + apply IH; try lia; try assumption.
      intros j Hj. destruct (Nat.eq_dec j i) as [->|Hne].
      * rewrite <- Hx. exact E.
      * apply Hmax. lia.
Qed.

Lemma argmax_first_max (x : F) (row : list F) :
  let full := x :: row in
  let a := argmax_from 0 x 1 row in
  a < length full /\
  (forall j, j < length full -> flt (item full a) (item full j) = false) /\
  (forall j, j < a -> flt (item full j) (item full a) = true).
Proof.
  cbn zeta. set (full := x :: row).
  assert (Hinv := argmax_from_max full row (best := 0) (i := 1)).
  cbn zeta in Hinv.
  assert (Hx0 : item full 0 = x) by reflexivity. rewrite Hx0 in Hinv.
  apply Hinv; try reflexivity; try lia.
  intros j Hj. assert (j = 0) by lia. subst j. rewrite Hx0. apply flt_irrefl.
Qed.

Lemma argmax_is_argmax_spec (row : list F) :
  row <> [] -> argmax row = argmax_spec row.
Proof.
  destruct row as [|x row]; [congruence|]. intros _.
  destruct (argmax_first_max x row) as [Ha [Hmax Hfirst]].
  set (full := x :: row) in *.
  unfold argmax, argmax_spec. fold full.
  set (a := argmax_from 0 x 1 row) in *.
  symmetry. apply find_first; [exact Ha| |].
  - apply forallb_forall. intros w Hw.
    destruct (In_nth _ _ zero Hw) as [j [Hj <-]].
    fold (item full j). rewrite Hmax by exact Hj. reflexivity.
  - intros j Hj. apply not_true_is_false. intros Hall.
    rewrite forallb_forall in Hall.
    specialize (Hall (item full a) (nth_In _ _ Ha)).
    rewrite (Hfirst j Hj) in Hall. discriminate.
Qed.

Lemma argmax_dominant (row : list F) (i : nat) :
  dominates row i -> argmax row = Some i.
Proof.
  intros [Hi Hdom]. destruct row as [|x row]; [cbn in Hi; lia|].
  destruct (argmax_first_max x row) as [Ha [Hmax _]].
  unfold argmax. f_equal.
  set (a := argmax_from 0 x 1 row) in *.
  destruct (Nat.eq_dec a i) as [E|E]; [exact E|].
  specialize (Hmax i Hi). rewrite (Hdom a Ha E) in Hmax. discriminate.
Qed.

Lemma argmax_dominant_labels (log_probs : list (list F)) :
  Forall dominant log_probs ->
  Forall2 dominates log_probs
          (map (fun row => match argmax row with Some a => a | None => 0 end)
               log_probs).
Proof.
  induction 1 as [|row rows [i Hi] _ IH]; cbn; constructor; [|exact IH].
  now rewrite (argmax_dominant Hi).
Qed.
End ArgmaxFacts.

(** C7: on every table (each frame having at least one label), [greedy]
    returns exactly: the per-frame label of maximum log-probability, ties
    to the lowest index; each run of repeated labels collapsed to its first
    occurrence; every blank removed. *)
Theorem greedy_refines_spec :
  forall (F : Type) (N : LogNum F) (L : LtLaws F) (blank : nat)
         (log_probs : list (list F)),
    Forall (fun row => row <> []) log_probs ->
    greedy blank log_probs = Some (greedy_spec blank log_probs).
Proof.
  intros F N L blank log_probs Hrows.
  unfold greedy, argmax_indices. rewrite (argmax_indices_acc Hrows). cbn [app].
  unfold greedy_spec, remove_blank, collapse_spec.
  rewrite groupby_keys_collapse.
  replace (map (fun row : list F => match argmax_spec row with
                                    | Some a => a
                                    | None => 0
                                    end) log_probs)
    with (map (fun row : list F => match argmax row with
                                   | Some a => a
                                   | None => 0
                                   end) log_probs); [reflexivity|].
  apply map_ext_in. intros row Hin.
  rewrite Forall_forall in Hrows.
  rewrite (argmax_is_argmax_spec (Hrows row Hin)). reflexivity.
Qed.

Lemma greedy_refines_spec_witness :
  Forall (fun row : list Z => row <> []) frames_A_blank_A /\
  greedy 0 frames_A_blank_A = Some (greedy_spec 0 frames_A_blank_A).
Proof.
  assert (Hrows : Forall (fun row : list Z => row <> []) frames_A_blank_A).
  { repeat constructor; discriminate. }
  split; [exact Hrows|].
  exact (greedy_refines_spec MaxPlusZ_laws 0 Hrows).
Defined.

(** C8 as stated fails: frames dominated by A, blank, A decode to [A; A]. *)
Lemma greedy_adjacent_equal_counterexample :
  Forall dominant frames_A_blank_A /\
  greedy 0 frames_A_blank_A = Some [1; 1] /\
  adjacent_equal [1; 1] = true.
Proof.
  split; [|split; reflexivity].
  repeat constructor.
  - exists 1. split; [cbn; lia|]. intros [|[|[|j]]] Hj Hne; cbn in *; try reflexivity; lia.
  - exists 0. split; [cbn; lia|]. intros [|[|[|j]]] Hj Hne; cbn in *; try reflexivity; lia.
  - exists 1. split; [cbn; lia|]. intros [|[|[|j]]] Hj Hne; cbn in *; try reflexivity; lia.
Qed.

(** C8, amended: on a table with one dominant label per frame, [greedy]
    returns a sequence without blank labels: the sequence of the dominant
    labels of the frames, each run of repeated labels collapsed, which
    leaves no two adjacent equal labels, and the blanks removed from it
    afterwards, which brings together the equal labels a blank separated. *)
Theorem greedy_no_blank_collapsed :
  forall (F : Type) (N : LogNum F) (L : LtLaws F) (blank : nat)
         (log_probs : list (list F)),
    Forall dominant log_probs ->
    exists indices out,
      Forall2 dominates log_probs indices /\
      greedy blank log_probs = Some out /\
      out = remove_blank blank (collapse_spec indices) /\
      adjacent_equal (collapse_spec indices) = false /\
      ~ In blank out.
Proof.
  intros F N L blank log_probs Hdom.
  assert (Hrows : Forall (fun row : list F => row <> []) log_probs).
  { eapply Forall_impl; [|exact Hdom]. intros row. apply dominant_nonempty. }
  unfold greedy, argmax_indices. rewrite (argmax_indices_acc Hrows). cbn [app].
  eexists. eexists. split; [apply argmax_dominant_labels; exact Hdom|].
  unfold collapse_spec. rewrite <- groupby_keys_collapse.
  split; [reflexivity|]. split; [reflexivity|].
  split; [apply groupby_keys_no_adjacent|apply remove_blank_no_blank].
Qed.

(** ** Arrays *)

Section ArrayFacts.
Context {A : Type}.

Lemma update_length (l : list A) :
  forall t f, length (update l t f) = length l.
Proof.
  induction l as [|x l IH]; intros [|t] f; cbn; try reflexivity.
  now rewrite IH.
Qed.

Lemma nth_update_same (l : list A) (d : A) :
  forall t f, t < length l -> nth t (update l t f) d = f (nth t l d).
Proof.
  induction l as [|x l IH]; intros [|t] f Ht; cbn in *; try lia; try reflexivity.
  apply IH. lia.
Qed.

Lemma nth_update_other (l : list A) (d : A) :
  forall t j f, j <> t -> nth j (update l t f) d = nth j l d.
Proof.
  induction l as [|x l IH]; intros [|t] [|j] f Hne; cbn; try reflexivity; try lia.
  apply IH. lia.
Qed.

Lemma In_firstn (n : nat) (l : list A) (x : A) :
  In x (firstn n l) -> In x l.
Proof.
  intros Hx. rewrite <- (firstn_skipn n l). apply in_or_app. now left.
Qed.

Lemma nth_map_in {B : Type} (f : A -> B) (l : list A) (d : B) (d' : A) :
  forall i, i < length l -> nth i (map f l) d = f (nth i l d').
Proof.
  induction l as [|x l IH]; intros [|i] Hi; cbn in *; try lia; try reflexivity.
  apply IH. lia.
Qed.
End ArrayFacts.

(** ** The prefix scorer *)

Section FrameFacts.
Context {F : Type}.
Variable log_probs : list (list F).

Lemma in_frames_labels (cs : list nat) (t : nat) :
  Forall (fun row => Forall (fun c => c < length row) cs) log_probs ->
  in_frames log_probs t cs = true.
Proof.
  intros Hrows. unfold in_frames. apply forallb_forall. intros row Hrow.
  assert (Hin : In row log_probs).
  { rewrite <- (firstn_skipn t log_probs). apply in_or_app. now right. }
  rewrite Forall_forall in Hrows. specialize (Hrows row Hin).
  apply forallb_forall. intros c Hc. rewrite Forall_forall in Hrows.
  apply Nat.ltb_lt. now apply Hrows.
Qed.

Lemma in_frames_blank (blank t : nat) :
  Forall (fun row => blank < length row) log_probs ->
  in_frames log_probs t [blank] = true.
Proof.
  intros Hrows. apply in_frames_labels.
  eapply Forall_impl; [|exact Hrows]. intros row Hb. now constructor.
Qed.
End FrameFacts.

Section InitialStateFacts.
Context {F : Type} `{LogNum F}.
Variable log_probs : list (list F).
Variable blank : nat.

Let body (r : state) (i : nat) : state :=
  update r i
    (fun p => (fst p, fadd (snd (row_of r (i - 1))) (log_prob log_probs i blank))).

Let r0 : state :=
  update (repeat (logzero, logzero) (xlen log_probs)) 0
         (fun p => (fst p, log_prob log_probs 0 blank)).

Lemma blank_prefix_sum_succ (t : nat) :
  blank_prefix_sum log_probs blank (S t) =
  fadd (blank_prefix_sum log_probs blank t) (log_prob log_probs (S t) blank).
Proof.
  unfold blank_prefix_sum. rewrite seq_S, map_app, fold_left_app. reflexivity.
Qed.

Lemma initial_state_loop (m : nat) :
  m < xlen log_probs ->
  let r := fold_left body (seq 1 m) r0 in
  length r = xlen log_probs /\
  (forall t, t <= m -> row_of r t = (logzero, blank_prefix_sum log_probs blank t)) /\
  (forall t, m < t -> t < xlen log_probs -> row_of r t = (logzero, logzero)).
Proof.
  induction m as [|m IH]; intros Hm; cbn zeta.
  - cbn [seq fold_left]. unfold r0, row_of.
    split; [now rewrite update_length, repeat_length|]. split.
    + intros t Ht. assert (t = 0) by lia. subst t.
      rewrite nth_update_same by (rewrite repeat_length; lia).
      rewrite nth_repeat. reflexivity.
    + intros t Ht Hx. rewrite nth_update_other by lia.
      rewrite nth_repeat. reflexivity.
  - destruct IH as [Hlen [Hlow Hhigh]]; [lia|].
    rewrite seq_S, fold_left_app. cbn [fold_left].
    set (r := fold_left body (seq 1 m) r0) in *.
    change (1 + m) with (S m).
    change (body r (S m)) with
      (update r (S m)
         (fun p => (fst p, fadd (snd (row_of r (S m - 1)))
                                (log_prob log_probs (S m) blank)))).
    split; [now rewrite update_length|]. split.
    + intros t Ht. unfold row_of at 1.
      destruct (Nat.eq_dec t (S m)) as [->|Hne].
      * rewrite nth_update_same by lia. fold (row_of r (S m)).
        rewrite (Hhigh (S m)) by lia. cbn [fst].
        replace (S m - 1) with m by lia.
        rewrite (Hlow m) by lia. cbn [snd].
        now rewrite blank_prefix_sum_succ.
      * rewrite nth_update_other by exact Hne. apply Hlow. lia.
    + intros t Ht Hx. unfold row_of at 1.
      rewrite nth_update_other by lia. apply Hhigh; lia.
Qed.
End InitialStateFacts.

(** C6: for a table of at least one frame (blank being a label of every
    frame), [initial_state] returns a state of [xlen] rows whose blank
    track at [t] is the sum of the blank log-probabilities of frames
    [0..t] and whose non-blank track is the log-zero constant. *)
Theorem initial_state_blank_prefix_sums :
  forall (F : Type) (N : LogNum F) (log_probs : list (list F)) (blank : nat),
    1 <= xlen log_probs ->
    Forall (fun row => blank < length row) log_probs ->
    exists r,
      initial_state log_probs blank = Some r /\
      length r = xlen log_probs /\
      forall t, t < xlen log_probs ->
        snd (row_of r t) = blank_prefix_sum log_probs blank t /\
        fst (row_of r t) = logzero.
Proof.
  intros F N log_probs blank Hx Hblank.
  unfold initial_state. rewrite (in_frames_blank 0 Hblank).
  destruct (xlen log_probs) as [|n] eqn:E; [lia|].
  eexists. split; [reflexivity|].
  replace (S n - 1) with n by lia.
  destruct (initial_state_loop log_probs blank (m := n)) as [Hlen [Hlow _]]; [lia|].
  rewrite E in *. split; [exact Hlen|].
  intros t Ht. unfold state in *. rewrite (Hlow t) by lia. split; reflexivity.
Qed.

Lemma initial_state_blank_prefix_sums_witness :
  1 <= xlen frames_A_blank_A /\
  Forall (fun row : list Z => 0 < length row) frames_A_blank_A /\
  exists r,
    initial_state frames_A_blank_A 0 = Some r /\
    length r = xlen frames_A_blank_A /\
    forall t, t < xlen frames_A_blank_A ->
      snd (row_of r t) = blank_prefix_sum frames_A_blank_A 0 t /\
      fst (row_of r t) = logzero.
Proof.
  assert (Hx : 1 <= xlen frames_A_blank_A) by (cbn; lia).
  assert (Hb : Forall (fun row : list Z => 0 < length row) frames_A_blank_A).
  { repeat constructor; cbn; lia. }
  split; [exact Hx|]. split; [exact Hb|].
  exact (@initial_state_blank_prefix_sums Z MaxPlusZ frames_A_blank_A 0 Hx Hb).
Defined.

Section VectorFacts.
Context {F : Type} `{LogNum F}.

Lemma vmap2_length (f : F -> F -> F) (u v : list F) :
  length (vmap2 f u v) = min (length u) (length v).
Proof.
  unfold vmap2. now rewrite length_map, length_combine.
Qed.

Lemma vmap2_nth (f : F -> F -> F) (u : list F) :
  forall v i, i < length u -> i < length v ->
              nth i (vmap2 f u v) zero = f (nth i u zero) (nth i v zero).
Proof.
  unfold vmap2. induction u as [|x u IH]; intros [|y v] [|i] Hu Hv;
    cbn in *; try lia; try reflexivity.
  apply IH; lia.
Qed.

Lemma set_eos_length (eos : nat) (cs : list nat) (v : F) (log_psi : list F) :
  length log_psi = length cs ->
  length (set_eos eos cs v log_psi) = length cs.
Proof.
  intros Hlen. unfold set_eos. rewrite length_map, length_combine. lia.
Qed.

Lemma set_eos_at_eos (eos : nat) (v : F) (cs : list nat) :
  forall log_psi i,
    length log_psi = length cs ->
    nth_error cs i = Some eos ->
    nth_error (set_eos eos cs v log_psi) i = Some v.
Proof.
  unfold set_eos. induction cs as [|c cs IH]; intros [|x psi] [|i] Hlen Hi;
    cbn in *; try discriminate.
  - injection Hi as ->. now rewrite Nat.eqb_refl.
  - apply IH; [lia|exact Hi].
Qed.

Lemma rollaxis_row (n : nat) (r : states) (i t : nat) :
  i < n -> t < length r ->
  row_of (nth i (rollaxis n r) []) t =
  (nth i (fst (srow r t)) zero, nth i (snd (srow r t)) zero).
Proof.
  intros Hi Ht. unfold rollaxis, row_of, srow.
  rewrite (nth_map_in _ _ _ 0) by (rewrite length_seq; exact Hi).
  rewrite seq_nth by exact Hi. cbn [Nat.add].
  now rewrite (nth_map_in _ _ _ ([], [])) by exact Ht.
Qed.
End VectorFacts.

Section CallFacts.
Context {F : Type} `{LogNum F}.
Variable log_probs : list (list F).
Variables blank eos : nat.
Variable uninit : nat -> nat -> nat -> F.
Variables hyp cs : list nat.
Variable r_prev : state (F := F).

Let T := xlen log_probs.
Let n := length cs.
Let s := start hyp.

Hypothesis start_in_table : s <= T.

Lemma xs_length (t : nat) : length (xs log_probs cs t) = n.
Proof. unfold xs. now rewrite length_map. Qed.

Lemma log_phi_length (t : nat) : length (log_phi hyp cs r_prev t) = n.
Proof.
  unfold log_phi.
  destruct ((0 <? ylen hyp) && existsb (Nat.eqb (last_of_hyp hyp)) cs).
  - now rewrite length_map.
  - now rewrite repeat_length.
Qed.

Lemma r_init_length : length (r_init log_probs uninit hyp cs) = T.
Proof.
  unfold r_init, r_alloc.
  destruct (ylen hyp =? 0); now rewrite update_length, length_map, length_seq.
Qed.

Lemma r_init_start_row :
  length (fst (srow (r_init log_probs uninit hyp cs) (s - 1))) = n.
Proof.
  assert (Hal : length (r_alloc log_probs uninit cs) = T).
  { unfold r_alloc. now rewrite length_map, length_seq. }
  subst s. unfold start, ylen, r_init, ylen, srow in *.
  destruct (length hyp - 1) as [|y] eqn:E.
  - cbn [Nat.eqb Nat.max Nat.sub]. cbn in start_in_table.
    rewrite nth_update_same by lia. cbn [fst]. apply xs_length.
  - cbn [Nat.eqb]. replace (Nat.max (S y) 1) with (S y) in * by lia.
    rewrite nth_update_same by lia. cbn [fst]. apply repeat_length.
Qed.

Lemma one_le_start : 1 <= s.
Proof. subst s. unfold start. lia. Qed.

Lemma forward_loop (k : nat) :
  s + k <= T ->
  forward_inv log_probs hyp cs r_prev k
    (fold_left (forward log_probs blank hyp cs r_prev) (seq s k)
       (r_init log_probs uninit hyp cs,
        fst (srow (r_init log_probs uninit hyp cs) (s - 1)))).
Proof.
  pose proof one_le_start as Hs.
  induction k as [|k IH]; intros Hk.
  - cbn [seq fold_left]. unfold forward_inv. cbn [fst snd].
    split; [apply r_init_length|]. split; [apply r_init_start_row|].
    split.
    + intros t Hlo Hhi. replace t with (s - 1) by lia. apply r_init_start_row.
    + intros t Hlo Hhi. lia.
  - rewrite seq_S, fold_left_app. cbn [fold_left].
    destruct IH as [Hlen [Hpsi [Hrows Hrec]]]; [lia|].
    set (st := fold_left _ (seq s k) _) in *.
    destruct st as [r psi]. cbn [fst snd] in *.
    unfold forward. cbn [fst snd].
    set (t0 := s + k) in *.
    set (nb := vmap2 fadd (vmap2 logaddexp (fst (srow r (t0 - 1)))
                                           (log_phi hyp cs r_prev (t0 - 1)))
                          (xs log_probs cs t0)).
    assert (Hnb : length nb = n).
    { unfold nb. rewrite !vmap2_length, log_phi_length, xs_length.
      rewrite Hrows by (unfold t0; lia). lia. }
    assert (Hrow : forall t, fst (srow (update (update r t0 (fun row => (nb, snd row))) t0
                                   (fun row => (fst row,
                                      map (fun v => fadd v (log_prob log_probs t0 blank))
                                        (vmap2 logaddexp
                                           (fst (srow (update r t0 (fun row => (nb, snd row))) (t0 - 1)))
                                           (snd (srow (update r t0 (fun row => (nb, snd row))) (t0 - 1))))))) t)
                             = if t =? t0 then nb else fst (srow r t)).
    { intros t. unfold srow at 1. destruct (Nat.eqb_spec t t0) as [->|Hne].
      - rewrite nth_update_same by (rewrite update_length; lia). cbn [fst].
        rewrite nth_update_same by lia. reflexivity.
      - rewrite !nth_update_other by exact Hne. reflexivity. }
    unfold forward_inv. cbn [fst snd].
    split; [now rewrite !update_length|].
    split; [rewrite !vmap2_length, log_phi_length, xs_length; lia|].
    split.
    + intros t Hlo Hhi. rewrite Hrow.
      destruct (Nat.eqb_spec t t0) as [->|Hne]; [exact Hnb|].
      apply Hrows; [exact Hlo|unfold t0 in *; lia].
    + intros t Hlo Hhi. rewrite !Hrow.
      destruct (Nat.eqb_spec t t0) as [->|Hne].
      * destruct (Nat.eqb_spec (t0 - 1) t0) as [E|_]; [unfold t0 in E; lia|].
        reflexivity.
      * destruct (Nat.eqb_spec (t - 1) t0) as [E|_]; [unfold t0 in *; lia|].
        apply Hrec; [exact Hlo|unfold t0 in *; lia].
Qed.

Lemma log_phi_nth (i c t : nat) :
  0 < ylen hyp ->
  nth_error cs i = Some c ->
  nth i (log_phi hyp cs r_prev t) zero =
  if c =? last_of_hyp hyp then snd (row_of r_prev t) else r_sum r_prev t.
Proof.
  intros Hy Hc. unfold log_phi.
  apply Nat.ltb_lt in Hy. rewrite Hy. cbn [andb].
  assert (Hi : i < length cs) by (apply nth_error_Some; congruence).
  destruct (existsb (Nat.eqb (last_of_hyp hyp)) cs) eqn:E.
  - rewrite (nth_map_in _ _ _ 0) by exact Hi.
    rewrite (nth_error_nth _ _ 0 Hc).
    destruct (c =? last_of_hyp hyp); reflexivity.
  - rewrite nth_repeat_lt by exact Hi.
    destruct (c =? last_of_hyp hyp) eqn:Ec; [|reflexivity].
    apply Nat.eqb_eq in Ec. subst c.
    assert (Hex : existsb (Nat.eqb (last_of_hyp hyp)) cs = true).
    { apply existsb_exists. exists (last_of_hyp hyp). split.
      - eapply nth_error_In; exact Hc.
      - apply Nat.eqb_refl. }
    congruence.
Qed.
End CallFacts.

Lemma call_returns :
  forall (F : Type) (N : LogNum F) (log_probs : list (list F)) (blank eos : nat)
         (uninit : nat -> nat -> nat -> F) (hyp cs : list nat) (r_prev : state),
    hyp <> [] ->
    start hyp <= xlen log_probs ->
    length r_prev = xlen log_probs ->
    Forall (fun row => blank < length row) log_probs ->
    Forall (fun row => Forall (fun c => c < length row) cs) log_probs ->
    let st := fold_left (forward log_probs blank hyp cs r_prev)
                (seq (start hyp) (xlen log_probs - start hyp))
                (r_init log_probs uninit hyp cs,
                 fst (srow (r_init log_probs uninit hyp cs) (start hyp - 1))) in
    let has_eos := existsb (Nat.eqb eos) cs in
    let log_psi := if has_eos
                   then set_eos eos cs (r_sum r_prev (xlen log_probs - 1)) (snd st)
                   else snd st in
    call log_probs blank eos uninit hyp cs r_prev =
    Some (log_psi,
          rollaxis (length cs)
            (if has_eos && (xlen log_probs <=? start hyp)
             then update (fst st) (start hyp - 1) (fun row => (log_psi, snd row))
             else fst st)).
Proof.
  intros F N log_probs blank eos uninit hyp cs r_prev Hhyp Hstart Hprev Hblank Hcs.
  cbn zeta. unfold call. destruct hyp as [|y hyp']; [congruence|].
  apply Nat.leb_le in Hstart. apply Nat.eqb_eq in Hprev.
  rewrite Hstart, Hprev, (in_frames_labels _ Hcs), (in_frames_blank _ Hblank).
  reflexivity.
Qed.

(** C3: for a prefix of at least one label (on a table at least as long,
    of which blank and the candidates are labels), [__call__] returns, and for
    every candidate [c] and every frame [t] from [start] to [xlen - 1] the
    connecting term [log_phi[t - 1]] is [r_prev[t - 1, 1]] (blank) alone
    when [c] is the last label of the prefix and
    [logaddexp(r_prev[t - 1, 0], r_prev[t - 1, 1])] otherwise, and the
    returned non-blank track obeys
    [r[t, 0] = logaddexp(r[t - 1, 0], log_phi[t - 1]) + log_probs[t, c]]. *)
Theorem call_nonblank_recursion :
  forall (F : Type) (N : LogNum F) (log_probs : list (list F)) (blank eos : nat)
         (uninit : nat -> nat -> nat -> F) (hyp cs : list nat) (r_prev : state),
    2 <= length hyp ->
    length hyp - 1 <= xlen log_probs ->
    length r_prev = xlen log_probs ->
    Forall (fun row => blank < length row) log_probs ->
    Forall (fun row => Forall (fun c => c < length row) cs) log_probs ->
    exists log_psi sts,
      call log_probs blank eos uninit hyp cs r_prev = Some (log_psi, sts) /\
      forall i c t,
        nth_error cs i = Some c ->
        start hyp <= t -> t < xlen log_probs ->
        let r := nth i sts [] in
        let connecting := nth i (log_phi hyp cs r_prev (t - 1)) zero in
        (c = last hyp 0 -> connecting = snd (row_of r_prev (t - 1))) /\
        (c <> last hyp 0 ->
         connecting = logaddexp (fst (row_of r_prev (t - 1)))
                                (snd (row_of r_prev (t - 1)))) /\
        fst (row_of r t) =
        fadd (logaddexp (fst (row_of r (t - 1))) connecting) (log_prob log_probs t c).
Proof.
  intros F N log_probs blank eos uninit hyp cs r_prev Hhyp Hlen Hprev Hblank Hcs.
  assert (Hne : hyp <> []) by (intros ->; cbn in Hhyp; lia).
  assert (Hstart : start hyp <= xlen log_probs) by (unfold start, ylen; lia).
  assert (Hy : 0 < ylen hyp) by (unfold ylen; lia).
  eexists. eexists. split; [apply call_returns; assumption|].
  intros i c t Hc Hlo Hhi. cbn zeta.
  assert (Hi : i < length cs) by (apply nth_error_Some; congruence).
  rewrite (@log_phi_nth _ _ hyp cs r_prev i c (t - 1) Hy Hc).
  split; [|split].
  - intros ->. unfold last_of_hyp. now rewrite Nat.eqb_refl.
  - intros Hcl. unfold last_of_hyp.
    destruct (Nat.eqb_spec c (last hyp 0)); [contradiction|reflexivity].
  - assert (Hx : (xlen log_probs <=? start hyp) = false) by (apply Nat.leb_gt; lia).
    rewrite Hx, andb_false_r.
    destruct (@forward_loop _ _ log_probs blank uninit hyp cs r_prev Hstart
                (xlen log_probs - start hyp)) as [HT [_ [Hrows Hrec]]]; [lia|].
    set (st := fold_left _ _ _) in *.
    assert (Hs : 1 <= start hyp) by (unfold start; lia).
    rewrite !rollaxis_row by (try exact Hi; rewrite HT; lia). cbn [fst].
    rewrite (Hrec t) by lia.
    rewrite vmap2_nth; [rewrite vmap2_nth| |].
    + unfold xs. rewrite (nth_map_in _ _ _ 0) by exact Hi.
      rewrite (nth_error_nth _ _ 0 Hc).
      rewrite (@log_phi_nth _ _ hyp cs r_prev i c (t - 1) Hy Hc). reflexivity.
    + rewrite Hrows by lia. exact Hi.
    + rewrite log_phi_length. exact Hi.
    + rewrite vmap2_length, log_phi_length, Hrows by lia. lia.
    + rewrite xs_length. exact Hi.
Qed.

Lemma call_nonblank_recursion_witness :
  2 <= length [2; 1] /\
  length [2; 1] - 1 <= xlen frames_A_blank_A /\
  length state_A_blank_A = xlen frames_A_blank_A /\
  Forall (fun row : list Z => 0 < length row) frames_A_blank_A /\
  Forall (fun row : list Z => Forall (fun c => c < length row) [1; 2])
         frames_A_blank_A /\
  exists log_psi sts,
    call frames_A_blank_A 0 2 (fun _ _ _ => 0%Z) [2; 1] [1; 2] state_A_blank_A
    = Some (log_psi, sts) /\
    forall i c t,
      nth_error [1; 2] i = Some c ->
      start [2; 1] <= t -> t < xlen frames_A_blank_A ->
      let r := nth i sts [] in
      let connecting := nth i (log_phi [2; 1] [1; 2] state_A_blank_A (t - 1)) zero in
      (c = last [2; 1] 0 -> connecting = snd (row_of state_A_blank_A (t - 1))) /\
      (c <> last [2; 1] 0 ->
       connecting = logaddexp (fst (row_of state_A_blank_A (t - 1)))
                              (snd (row_of state_A_blank_A (t - 1)))) /\
      fst (row_of r t) =
      fadd (logaddexp (fst (row_of r (t - 1))) connecting)
           (log_prob frames_A_blank_A t c).
Proof.
  assert (H1 : 2 <= length [2; 1]) by (cbn; lia).
  assert (H2 : length [2; 1] - 1 <= xlen frames_A_blank_A) by (cbn; lia).
  assert (H3 : length state_A_blank_A = xlen frames_A_blank_A) by reflexivity.
  assert (H4 : Forall (fun row : list Z => 0 < length row) frames_A_blank_A).
  { repeat constructor; cbn; lia. }
  assert (H5 : Forall (fun row : list Z => Forall (fun c => c < length row) [1; 2])
                      frames_A_blank_A).
  { repeat constructor; cbn; lia. }
  split; [exact H1|]. split; [exact H2|]. split; [exact H3|].
  split; [exact H4|]. split; [exact H5|].
  exact (@call_nonblank_recursion Z MaxPlusZ frames_A_blank_A 0 2 (fun _ _ _ => 0%Z)
           [2; 1] [1; 2] state_A_blank_A H1 H2 H3 H4 H5).
Defined.

(** C5: whenever [__call__] can run (a prefix that starts with the
    start-of-sentence label, a table at least as long as the prefix and not
    empty, of which blank and the candidates are labels, [r_prev] a state
    of the table), it returns one score per
    candidate, and the score of every end-of-sentence candidate is
    [logaddexp(r_prev[xlen - 1, 0], r_prev[xlen - 1, 1])]. *)
Theorem call_eos_score :
  forall (F : Type) (N : LogNum F) (log_probs : list (list F)) (blank eos : nat)
         (uninit : nat -> nat -> nat -> F) (hyp cs : list nat) (r_prev : state),
    hyp <> [] ->
    start hyp <= xlen log_probs ->
    length r_prev = xlen log_probs ->
    Forall (fun row => blank < length row) log_probs ->
    Forall (fun row => Forall (fun c => c < length row) cs) log_probs ->
    exists log_psi sts,
      call log_probs blank eos uninit hyp cs r_prev = Some (log_psi, sts) /\
      length log_psi = length cs /\
      forall i,
        nth_error cs i = Some eos ->
        nth_error log_psi i =
        Some (logaddexp (fst (row_of r_prev (xlen log_probs - 1)))
                        (snd (row_of r_prev (xlen log_probs - 1)))).
Proof.
  intros F N log_probs blank eos uninit hyp cs r_prev Hne Hstart Hprev Hblank Hcs.
  eexists. eexists. split; [apply call_returns; assumption|].
  destruct (@forward_loop _ _ log_probs blank uninit hyp cs r_prev Hstart
              (xlen log_probs - start hyp)) as [_ [Hpsi _]]; [lia|].
  set (st := fold_left _ _ _) in *.
  destruct (existsb (Nat.eqb eos) cs) eqn:E.
  - split; [now apply set_eos_length|].
    intros i Hi. now apply set_eos_at_eos.
  - split; [exact Hpsi|]. intros i Hi.
    assert (Hex : existsb (Nat.eqb eos) cs = true).
    { apply existsb_exists. exists eos. split.
      - eapply nth_error_In; exact Hi.
      - apply Nat.eqb_refl. }
    congruence.
Qed.

Lemma call_eos_score_witness :
  [2] <> [] /\
  start [2] <= xlen frames_A_blank_A /\
  length state_A_blank_A = xlen frames_A_blank_A /\
  Forall (fun row : list Z => 0 < length row) frames_A_blank_A /\
  Forall (fun row : list Z => Forall (fun c => c < length row) [1; 2])
         frames_A_blank_A /\
  exists log_psi sts,
    call frames_A_blank_A 0 2 (fun _ _ _ => 0%Z) [2] [1; 2] state_A_blank_A
    = Some (log_psi, sts) /\
    length log_psi = length [1; 2] /\
    forall i,
      nth_error [1; 2] i = Some 2 ->
      nth_error log_psi i =
      Some (logaddexp (fst (row_of state_A_blank_A (xlen frames_A_blank_A - 1)))
                      (snd (row_of state_A_blank_A (xlen frames_A_blank_A - 1)))).
Proof.
  assert (H1 : [2] <> []) by discriminate.
  assert (H2 : start [2] <= xlen frames_A_blank_A) by (cbn; lia).
  assert (H3 : length state_A_blank_A = xlen frames_A_blank_A) by reflexivity.
  assert (H4 : Forall (fun row : list Z => 0 < length row) frames_A_blank_A).
  { repeat constructor; cbn; lia. }
  assert (H5 : Forall (fun row : list Z => Forall (fun c => c < length row) [1; 2])
                      frames_A_blank_A).
  { repeat constructor; cbn; lia. }
  split; [exact H1|]. split; [exact H2|]. split; [exact H3|].
  split; [exact H4|]. split; [exact H5|].
  exact (@call_eos_score Z MaxPlusZ frames_A_blank_A 0 2 (fun _ _ _ => 0%Z)
           [2] [1; 2] state_A_blank_A H1 H2 H3 H4 H5).
Defined.

(** [__call__] on the scenario, evaluated in the max-plus integers: prefix
    [sos], candidates A and end-of-sentence. *)
Example call_on_A_blank_A :
  call frames_A_blank_A 0 2 (fun _ _ _ => 0%Z) [2] [1; 2] state_A_blank_A
  = Some ([0; -1600]%Z,
          [ [(0, -10000000000); (-800, 0); (-800, -800)];
            [(-900, -10000000000); (-1700, -900); (-1700, -1700)] ]%Z).
Proof. vm_compute. reflexivity. Qed.

(** ** Sorting *)

Section SortingFacts.
Context {F : Type} `{LogNum F} {A : Type}.
Variable key : A -> F.

Lemma insert_desc_perm (x : A) (l : list A) :
  Permutation (insert_desc key x l) (x :: l).
Proof.
  induction l as [|y l IH]; cbn; [reflexivity|].
  destruct (flt (key x) (key y)); [|reflexivity].
  rewrite IH. apply perm_swap.
Qed.

Lemma sorted_reverse_perm (l : list A) : Permutation (sorted_reverse key l) l.
Proof.
  induction l as [|x l IH]; cbn; [reflexivity|].
  rewrite insert_desc_perm. now constructor.
Qed.

Lemma sorted_reverse_length (l : list A) :
  length (sorted_reverse key l) = length l.
Proof. apply Permutation_length, sorted_reverse_perm. Qed.

Lemma sorted_reverse_In (l : list A) (x : A) :
  In x (sorted_reverse key l) <-> In x l.
Proof.
  split; apply Permutation_in; [|symmetry]; apply sorted_reverse_perm.
Qed.
End SortingFacts.

Section SortingOrderFacts.
Context {F : Type} `{LtLaws F} {A : Type}.
Variable key : A -> F.

Lemma insert_desc_descending (x : A) (l : list A) :
  descending key l -> descending key (insert_desc key x l).
Proof.
  unfold descending. induction 1 as [|y l Hl IH Hy]; cbn.
  - constructor; constructor.
  - destruct (flt (key x) (key y)) eqn:E.
    + constructor; [exact IH|].
      rewrite Forall_forall in *. intros z Hz.
      apply (Permutation_in _ (insert_desc_perm key x l)) in Hz.
      destruct Hz as [<-|Hz]; [now apply flt_asym|now apply Hy].
    + constructor; [now constructor|].
      constructor; [exact E|].
      rewrite Forall_forall in *. intros z Hz.
      apply flt_negtrans with (y := key y); [exact E|now apply Hy].
Qed.

Lemma sorted_reverse_descending (l : list A) :
  descending key (sorted_reverse key l).
Proof.
  induction l as [|x l IH]; cbn; [constructor|].
  now apply insert_desc_descending.
Qed.

Lemma insert_desc_tied (v : F) (x : A) (l : list A) :
  filter (tied key v) (insert_desc key x l) =
  filter (tied key v) (x :: l).
Proof.
  induction l as [|y l IH]; [reflexivity|].
  cbn [insert_desc]. destruct (flt (key x) (key y)) eqn:E; [|reflexivity].
  cbn [filter] in *. rewrite IH.
  destruct (tied key v x) eqn:Tx; [|reflexivity].
  destruct (tied key v y) eqn:Ty; [|reflexivity].
  unfold tied in Tx, Ty.
  apply andb_prop in Tx, Ty. destruct Tx as [_ Tx], Ty as [Ty _].
  apply negb_true_iff in Tx, Ty.
  rewrite (flt_negtrans _ _ _ Tx Ty) in E. discriminate.
Qed.

Lemma sorted_reverse_stable (v : F) (l : list A) :
  filter (tied key v) (sorted_reverse key l) = filter (tied key v) l.
Proof.
  induction l as [|x l IH]; [reflexivity|].
  cbn [sorted_reverse fold_right]. rewrite insert_desc_tied.
  cbn [filter]. fold (sorted_reverse key l). now rewrite IH.
Qed.

Lemma descending_app (l1 l2 : list A) :
  descending key (l1 ++ l2) ->
  descending key l1 /\
  forall x y, In x l1 -> In y l2 -> flt (key x) (key y) = false.
Proof.
  unfold descending. induction l1 as [|a l1 IH]; cbn; intros Hs.
  - split; [constructor|]. intros x y [].
  - inversion Hs as [|a' l' Hl Ha]; subst.
    destruct (IH Hl) as [H1 H2]. split.
    + constructor; [exact H1|].
      rewrite Forall_forall in *. intros z Hz. apply Ha, in_or_app. now left.
    + intros x y [<-|Hx] Hy; [|now apply H2].
      rewrite Forall_forall in Ha. apply Ha, in_or_app. now right.
Qed.
End SortingOrderFacts.

(** ** Beam search *)

Section BeamFacts.
Context {F : Type} `{LogNum F}.
Variables eos blank vocab beam_width : nat.
Variable lm : option (LM (F := F)).
Variable lm_weight : F.
Variable lm_usage : LmUsage.

#[local] Abbreviation extend_with' := (extend_with blank lm lm_weight lm_usage).
#[local] Abbreviation extended' := (extended lm_weight).
#[local] Abbreviation not_extended' := (not_extended blank lm_weight).
#[local] Abbreviation expand' := (expand blank lm lm_weight lm_usage).
#[local] Abbreviation candidates' := (candidates blank lm lm_weight lm_usage).
#[local] Abbreviation step' := (step blank vocab beam_width lm lm_weight lm_usage).
#[local] Abbreviation time_loop' :=
  (time_loop blank vocab beam_width lm lm_weight lm_usage).

Lemma extend_loop_In (row : list F) (e : entry) (indices_topk : list nat) :
  forall st x,
    In x (snd (fold_left (extend_with' row e) indices_topk st)) ->
    In x (snd st) \/
    exists c clm, In c indices_topk /\ c <> blank /\ x = extended' row e clm c.
Proof.
  induction indices_topk as [|c idx IH]; intros st x Hx; cbn in *; [now left|].
  apply IH in Hx. destruct Hx as [Hx|[c' [clm [Hc [Hb ->]]]]].
  - unfold extend_with in Hx. destruct (Nat.eqb_spec c blank) as [->|Hb].
    + now left.
    + cbn [snd] in Hx. apply in_app_or in Hx. destruct Hx as [Hx|[<-|[]]].
      * now left.
      * right. eexists. eexists. split; [now left|]. split; [exact Hb|reflexivity].
  - right. exists c', clm. split; [now right|]. split; [exact Hb|reflexivity].
Qed.

Lemma extend_loop_keeps (row : list F) (e : entry) (indices_topk : list nat) :
  forall st x,
    In x (snd st) -> In x (snd (fold_left (extend_with' row e) indices_topk st)).
Proof.
  induction indices_topk as [|c idx IH]; intros st x Hx; cbn; [exact Hx|].
  apply IH. unfold extend_with. destruct (c =? blank); [exact Hx|].
  cbn [snd]. apply in_or_app. now left.
Qed.

Lemma expand_loop_In (row : list F) (indices_topk : list nat) (beam : list entry) :
  forall new_beam x,
    In x (fold_left (expand' row indices_topk) beam new_beam) ->
    In x new_beam \/
    exists e, In e beam /\
      (x = not_extended' row e \/
       exists c clm, In c indices_topk /\ c <> blank /\ x = extended' row e clm c).
Proof.
  induction beam as [|e beam IH]; intros new_beam x Hx; cbn in *; [now left|].
  apply IH in Hx. destruct Hx as [Hx|[e' [He' Hx]]].
  - unfold expand in Hx. apply extend_loop_In in Hx. cbn [snd] in Hx.
    destruct Hx as [Hx|Hx].
    + apply in_app_or in Hx. destruct Hx as [Hx|[<-|[]]]; [now left|].
      right. exists e. split; [now left|now left].
    + right. exists e. split; [now left|now right].
  - right. exists e'. split; [now right|exact Hx].
Qed.

Lemma expand_loop_keeps (row : list F) (indices_topk : list nat) (beam : list entry) :
  forall new_beam x,
    In x new_beam -> In x (fold_left (expand' row indices_topk) beam new_beam).
Proof.
  induction beam as [|e beam IH]; intros new_beam x Hx; cbn; [exact Hx|].
  apply IH. unfold expand. apply extend_loop_keeps. cbn [snd].
  apply in_or_app. now left.
Qed.

Lemma expand_loop_not_extended (row : list F) (indices_topk : list nat)
      (beam : list entry) :
  forall new_beam e,
    In e beam ->
    In (not_extended' row e) (fold_left (expand' row indices_topk) beam new_beam).
Proof.
  induction beam as [|e' beam IH]; intros new_beam e He; [destruct He|].
  destruct He as [<-|He]; cbn.
  - apply expand_loop_keeps. unfold expand. apply extend_loop_keeps.
    cbn [snd]. apply in_or_app. right. now left.
  - now apply IH.
Qed.

Lemma candidates_In (row : list F) (indices_topk : list nat) (beam : list entry) (x : entry) :
  In x (candidates' row indices_topk beam) ->
  exists e, In e beam /\
    (x = not_extended' row e \/
     exists c clm, In c indices_topk /\ c <> blank /\ x = extended' row e clm c).
Proof.
  intros Hx. apply expand_loop_In in Hx. destruct Hx as [[]|Hx]. exact Hx.
Qed.

Lemma candidates_length (row : list F) (indices_topk : list nat) (beam : list entry) :
  length beam <= length (candidates' row indices_topk beam).
Proof.
  unfold candidates.
  assert (Hgen : forall new_beam,
             length new_beam + length beam <=
             length (fold_left (expand' row indices_topk) beam new_beam)).
  { induction beam as [|e beam IH]; intros new_beam; cbn; [lia|].
    etransitivity; [|apply IH]. unfold expand.
    assert (Hext : forall idx st,
               length (snd st) <=
               length (snd (fold_left (extend_with' row e) idx st))).
    { induction idx as [|c idx IHc]; intros st; cbn; [lia|].
      etransitivity; [|apply IHc]. unfold extend_with.
      destruct (c =? blank); [lia|]. cbn [snd]. rewrite length_app. lia. }
    specialize (Hext indices_topk (clm_score e, new_beam ++ [not_extended' row e])).
    cbn [snd] in Hext. rewrite length_app in Hext. cbn in Hext. lia. }
  specialize (Hgen []). cbn in Hgen. lia.
Qed.

Lemma topk_returns (k : nat) (row : list F) :
  k <= length row -> exists indices_topk, topk k row = Some indices_topk.
Proof.
  intros Hk. unfold topk. apply Nat.leb_le in Hk. rewrite Hk. eauto.
Qed.

Lemma step_In (beam beam' : list entry) (row : list F) (x : entry) :
  step' beam row = Some beam' -> In x beam' ->
  exists indices_topk e,
    topk (min beam_width vocab) row = Some indices_topk /\ In e beam /\
    (x = not_extended' row e \/
     exists c clm, In c indices_topk /\ c <> blank /\ x = extended' row e clm c).
Proof.
  unfold step. destruct (topk (min beam_width vocab) row) as [idx|];
    [|discriminate].
  destruct ((blank <? length row) || (length beam =? 0)); [|discriminate].
  intros [= <-] Hx. apply In_firstn, sorted_reverse_In in Hx.
  apply candidates_In in Hx. destruct Hx as [e [He Hx]].
  exists idx, e. auto.
Qed.

Lemma step_nonempty (beam : list entry) (row : list F) :
  1 <= beam_width -> beam <> [] ->
  blank < length row /\ min beam_width vocab <= length row ->
  exists best beam', step' beam row = Some (best :: beam').
Proof.
  intros Hw Hbeam [Hb Hk]. unfold step.
  destruct (topk_returns _ Hk) as [idx ->].
  apply Nat.ltb_lt in Hb. rewrite Hb. cbn [orb].
  pose proof (candidates_length row idx beam) as Hlen.
  rewrite <- (sorted_reverse_length score (candidates' row idx beam)) in Hlen.
  destruct beam as [|e beam]; [congruence|]. cbn [length] in Hlen.
  destruct (sorted_reverse score (candidates' row idx (e :: beam))) as [|best rest];
    [cbn in Hlen; lia|].
  destruct beam_width as [|w]; [lia|]. cbn [firstn]. eauto.
Qed.

Lemma time_loop_nonempty (log_probs : list (list F)) :
  1 <= beam_width ->
  Forall (fun row => blank < length row /\ min beam_width vocab <= length row)
         log_probs ->
  forall beam, beam <> [] ->
    exists best beam', time_loop' beam log_probs = Some (best :: beam').
Proof.
  intros Hw. induction 1 as [|row rows Hrow _ IH]; intros beam Hbeam; cbn.
  - destruct beam as [|e beam]; [congruence|]. eauto.
  - destruct (@step_nonempty beam row Hw Hbeam Hrow) as [best [beam' ->]].
    apply IH. discriminate.
Qed.
End BeamFacts.

(** ** Beam search over any [torch.topk] *)

Section TopkFacts.
Context {F : Type} `{LtLaws F}.

Lemma NoDup_firstn (A : Type) (k : nat) (l : list A) :
  NoDup l -> NoDup (firstn k l).
Proof.
  intros Hl. rewrite <- (firstn_skipn k l) in Hl.
  now apply NoDup_app_remove_r in Hl.
Qed.

(** [topk] keeps the contract of [torch.topk]. *)
Lemma topk_meets_contract : topk_contract (topk (F := F)).
Proof.
  intros k row. unfold topk. split.
  - intros Hk. apply Nat.leb_gt in Hk. now rewrite Hk.
  - intros Hk. pose proof Hk as Hle. apply Nat.leb_le in Hle. rewrite Hle.
    set (sorted := sorted_reverse (item row) (seq 0 (length row))).
    assert (Hperm : Permutation sorted (seq 0 (length row)))
      by apply sorted_reverse_perm.
    assert (Hdesc : descending (item row) (firstn k sorted ++ skipn k sorted)).
    { rewrite firstn_skipn. apply sorted_reverse_descending. }
    apply descending_app in Hdesc. destruct Hdesc as [Hfirst Hcut].
    exists (firstn k sorted). split; [reflexivity|].
    split.
    { rewrite length_firstn. unfold sorted.
      rewrite sorted_reverse_length, length_seq. lia. }
    split.
    { apply NoDup_firstn. apply (Permutation_NoDup (Permutation_sym Hperm)).
      apply seq_NoDup. }
    split.
    { rewrite Forall_forall. intros c Hc. apply In_firstn in Hc.
      apply (Permutation_in _ Hperm), in_seq in Hc. lia. }
    split; [exact Hfirst|].
    intros c d Hc Hd Hnot. apply Hcut; [exact Hc|].
    assert (Hin : In d (firstn k sorted ++ skipn k sorted)).
    { rewrite firstn_skipn. apply (Permutation_in _ (Permutation_sym Hperm)).
      apply in_seq. lia. }
    apply in_app_or in Hin. destruct Hin as [Hin|Hin]; [contradiction|exact Hin].
Qed.
End TopkFacts.

Section BeamOnFacts.
Context {F : Type} `{LogNum F}.
Variables eos blank vocab beam_width : nat.
Variable lm : option (LM (F := F)).
Variable lm_weight : F.
Variable lm_usage : LmUsage.
Variable topk_call : nat -> list F -> option (list nat).

#[local] Abbreviation clm_of' := (clm_of lm lm_weight lm_usage).
#[local] Abbreviation nonblank := (fun c : nat => negb (c =? blank)).

Lemma extend_loop_paths (row : list F) (e : entry) (indices_topk : list nat) :
  forall st,
    (lm_enabled lm lm_weight lm_usage ShallowFusion = None -> fst st = clm_score e) ->
    snd (fold_left (extend_with blank lm lm_weight lm_usage row e) indices_topk st) =
    snd st ++ map (fun c => extended lm_weight row e (clm_of' e c) c)
                  (filter nonblank indices_topk).
Proof.
  induction indices_topk as [|c idx IH]; intros st Hst; cbn [fold_left filter].
  - cbn [map]. now rewrite app_nil_r.
  - destruct (c =? blank) eqn:E; cbn [negb].
    + assert (Hs : extend_with blank lm lm_weight lm_usage row e st c = st)
        by (unfold extend_with; now rewrite E).
      rewrite Hs. now apply IH.
    + assert (Hs : extend_with blank lm lm_weight lm_usage row e st c =
                   (clm_of' e c,
                    snd st ++ [extended lm_weight row e (clm_of' e c) c])).
      { unfold extend_with, clm_of. rewrite E.
        destruct (lm_enabled lm lm_weight lm_usage ShallowFusion) as [m|];
          [reflexivity|]. now rewrite (Hst eq_refl). }
      rewrite Hs, IH.
      * cbn [snd map]. now rewrite <- app_assoc.
      * intros Hnone. cbn [fst]. unfold clm_of. now rewrite Hnone.
Qed.

Lemma expand_paths (row : list F) (indices_topk : list nat)
      (new_beam : list entry) (e : entry) :
  expand blank lm lm_weight lm_usage row indices_topk new_beam e =
  new_beam ++ paths blank lm lm_weight lm_usage row indices_topk [e].
Proof.
  unfold expand. rewrite extend_loop_paths; [|reflexivity].
  cbn [snd paths flat_map]. now rewrite app_nil_r, <- app_assoc.
Qed.

(** The candidates of a time step are its paths, one hypothesis each. *)
Lemma candidates_paths (row : list F) (indices_topk : list nat) (beam : list entry) :
  candidates blank lm lm_weight lm_usage row indices_topk beam =
  paths blank lm lm_weight lm_usage row indices_topk beam.
Proof.
  unfold candidates.
  assert (Hgen : forall new_beam,
             fold_left (expand blank lm lm_weight lm_usage row indices_topk)
                       beam new_beam =
             new_beam ++ paths blank lm lm_weight lm_usage row indices_topk beam).
  { induction beam as [|e beam IH]; intros new_beam; cbn [fold_left].
    - cbn. now rewrite app_nil_r.
    - rewrite IH, expand_paths. cbn [paths flat_map].
      now rewrite app_nil_r, <- app_assoc. }
  apply (Hgen []).
Qed.

Lemma contract_labels (k : nat) (row : list F) (indices_topk : list nat) :
  topk_contract topk_call ->
  topk_call k row = Some indices_topk ->
  Forall (fun c => c < length row) indices_topk.
Proof.
  intros Hcontract Hidx. destruct (Hcontract k row) as [Hnone Hsome].
  destruct (Nat.le_gt_cases k (length row)) as [Hk|Hk].
  - destruct (Hsome Hk) as [idx [Hidx' [_ [_ [Hrange _]]]]].
    rewrite Hidx in Hidx'. now injection Hidx' as <-.
  - rewrite (Hnone Hk) in Hidx. discriminate.
Qed.

Lemma step_on_In (beam beam' : list entry) (row : list F) (x : entry) :
  step_on blank vocab beam_width lm lm_weight lm_usage topk_call beam row
  = Some beam' ->
  In x beam' ->
  exists indices_topk e,
    topk_call (min beam_width vocab) row = Some indices_topk /\ In e beam /\
    (x = not_extended blank lm_weight row e \/
     exists c clm, In c indices_topk /\ c <> blank /\
                   x = extended lm_weight row e clm c).
Proof.
  unfold step_on. destruct (topk_call (min beam_width vocab) row) as [idx|];
    [|discriminate].
  destruct ((blank <? length row) || (length beam =? 0)); [|discriminate].
  intros [= <-] Hx. apply In_firstn, sorted_reverse_In in Hx.
  apply candidates_In in Hx. destruct Hx as [e [He Hx]].
  exists idx, e. auto.
Qed.
End BeamOnFacts.

Section BeamOnTopk.
Context {F : Type} `{LogNum F}.
Variables eos blank vocab beam_width : nat.
Variable lm : option (LM (F := F)).
Variable lm_weight : F.
Variable lm_usage : LmUsage.

Lemma step_on_topk (beam : list entry) (row : list F) :
  step_on blank vocab beam_width lm lm_weight lm_usage (topk (F := F)) beam row =
  step blank vocab beam_width lm lm_weight lm_usage beam row.
Proof. reflexivity. Qed.

Lemma time_loop_on_topk (log_probs : list (list F)) :
  forall beam,
    time_loop_on blank vocab beam_width lm lm_weight lm_usage (topk (F := F))
                 beam log_probs =
    time_loop blank vocab beam_width lm lm_weight lm_usage beam log_probs.
Proof.
  induction log_probs as [|row rows IH]; intros beam; [reflexivity|].
  cbn [time_loop_on time_loop]. rewrite step_on_topk.
  destruct (step blank vocab beam_width lm lm_weight lm_usage beam row);
    [apply IH|reflexivity].
Qed.

(** At [topk] the method over the call is [beam_search]. *)
Lemma beam_search_on_topk (length_penalty : F) (log_probs : list (list F)) :
  beam_search_on eos blank vocab beam_width lm lm_weight lm_usage (topk (F := F))
                 length_penalty log_probs =
  beam_search eos blank vocab beam_width lm lm_weight lm_usage
              length_penalty log_probs.
Proof.
  unfold beam_search_on, beam_search, final_beam_on, final_beam.
  now rewrite time_loop_on_topk.
Qed.
End BeamOnTopk.

Section BeamInvariant.
Context {F : Type} `{LogNum F}.
Variables eos blank vocab beam_width : nat.
Variable lm : option (LM (F := F)).
Variable lm_weight : F.
Variable lm_usage : LmUsage.

Lemma initial_beam_blank_free : Forall (blank_free eos blank) (initial_beam eos).
Proof.
  constructor; [|constructor]. exists []. split; [reflexivity|]. intros [].
Qed.

Lemma step_blank_free (beam beam' : list entry) (row : list F) :
  step blank vocab beam_width lm lm_weight lm_usage beam row = Some beam' ->
  Forall (blank_free eos blank) beam -> Forall (blank_free eos blank) beam'.
Proof.
  intros Hstep Hbeam. rewrite Forall_forall in *. intros x Hx.
  destruct (@step_In _ _ _ _ _ _ _ _ _ _ _ _ Hstep Hx) as [idx [e [_ [He Hcase]]]].
  destruct (Hbeam e He) as [labels [Hhyp Hnb]].
  destruct Hcase as [->|[c [clm [_ [Hc ->]]]]].
  - exists labels. split; [exact Hhyp|exact Hnb].
  - exists (labels ++ [c]). split; [cbn; now rewrite Hhyp|].
    intros Hin. apply in_app_or in Hin. destruct Hin as [Hin|[Hin|[]]]; congruence.
Qed.

Lemma time_loop_blank_free (log_probs : list (list F)) :
  forall beam beam',
    time_loop blank vocab beam_width lm lm_weight lm_usage beam log_probs = Some beam' ->
    Forall (blank_free eos blank) beam -> Forall (blank_free eos blank) beam'.
Proof.
  induction log_probs as [|row rows IH]; intros beam beam' Hloop Hbeam; cbn in Hloop.
  - now injection Hloop as <-.
  - destruct (step blank vocab beam_width lm lm_weight lm_usage beam row)
      as [beam1|] eqn:E; [|discriminate].
    eapply IH; [exact Hloop|]. eapply step_blank_free; eassumption.
Qed.

Lemma rescoring_blank_free (beam : list entry) :
  Forall (blank_free eos blank) beam ->
  Forall (blank_free eos blank) (rescoring eos lm lm_weight lm_usage beam).
Proof.
  intros Hbeam. unfold rescoring.
  destruct (lm_enabled lm lm_weight lm_usage Rescoring) as [m|]; [|exact Hbeam].
  assert (Hacc : forall new_beam,
             Forall (blank_free eos blank) new_beam ->
             Forall (blank_free eos blank)
               (fold_left (fun nb e => nb ++ [rescored eos lm_weight m e]) beam new_beam)).
  { induction Hbeam as [|e beam He _ IH]; intros new_beam Hnb; cbn; [exact Hnb|].
    apply IH. apply Forall_app. split; [exact Hnb|].
    constructor; [exact He|constructor]. }
  rewrite Forall_forall. intros x Hx. apply sorted_reverse_In in Hx.
  specialize (Hacc [] (Forall_nil _)). rewrite Forall_forall in Hacc. now apply Hacc.
Qed.

Lemma rescoring_length (beam : list entry) :
  length (rescoring eos lm lm_weight lm_usage beam) = length beam.
Proof.
  unfold rescoring.
  destruct (lm_enabled lm lm_weight lm_usage Rescoring) as [m|]; [|reflexivity].
  rewrite sorted_reverse_length.
  assert (Hacc : forall new_beam,
             length (fold_left (fun nb e => nb ++ [rescored eos lm_weight m e])
                               beam new_beam)
             = length new_beam + length beam).
  { induction beam as [|e beam IH]; intros new_beam; cbn; [lia|].
    rewrite IH, length_app. cbn. lia. }
  apply (Hacc []).
Qed.
End BeamInvariant.

(** C10: a call that can run (a beam of at least one hypothesis, frames wide
    enough for [topk]) returns; every hypothesis of the beam after the
    frames, and of the beam the result is read from, starts with the
    start-of-sentence label and has no blank after it; the returned
    sequence has no blank. *)
Theorem beam_search_never_emits_blank :
  forall (F : Type) (N : LogNum F) (eos blank vocab beam_width : nat)
         (lm : option LM) (lm_weight : F) (lm_usage : LmUsage)
         (length_penalty : F) (log_probs : list (list F)),
    1 <= beam_width ->
    Forall (fun row => blank < length row /\ min beam_width vocab <= length row)
           log_probs ->
    exists beam final out,
      time_loop blank vocab beam_width lm lm_weight lm_usage
                (initial_beam eos) log_probs = Some beam /\
      Forall (blank_free eos blank) beam /\
      final_beam eos blank vocab beam_width lm lm_weight lm_usage
                 length_penalty log_probs = Some final /\
      Forall (blank_free eos blank) final /\
      beam_search eos blank vocab beam_width lm lm_weight lm_usage
                  length_penalty log_probs = Some out /\
      ~ In blank out.
Proof.
  intros F N eos blank vocab beam_width lm lm_weight lm_usage lp log_probs Hw Hrows.
  destruct (@time_loop_nonempty _ _ blank vocab beam_width lm lm_weight lm_usage
              log_probs Hw Hrows (initial_beam eos)) as [best [beam' Hloop]];
    [discriminate|].
  assert (Hbeam : Forall (blank_free eos blank) (best :: beam')).
  { eapply time_loop_blank_free; [exact Hloop|apply initial_beam_blank_free]. }
  assert (Hfinal : Forall (blank_free eos blank)
                          (rescoring eos lm lm_weight lm_usage (best :: beam'))).
  { apply rescoring_blank_free. exact Hbeam. }
  assert (Hlen : length (rescoring eos lm lm_weight lm_usage (best :: beam'))
                 = length (best :: beam')).
  { apply rescoring_length. }
  unfold beam_search, final_beam. rewrite Hloop.
  destruct (rescoring eos lm lm_weight lm_usage (best :: beam')) as [|top rest] eqn:E;
    [cbn in Hlen; lia|].
  exists (best :: beam'), (top :: rest), (tl (hyp top)).
  repeat split; try assumption; try reflexivity.
  inversion Hfinal as [|? ? [labels [Hhyp Hnb]] _]; subst.
  rewrite Hhyp. exact Hnb.
Qed.

Lemma beam_search_never_emits_blank_witness :
  1 <= 2 /\
  Forall (fun row : list Z => 0 < length row /\ min 2 3 <= length row)
         frames_blank_A /\
  exists beam final out,
    time_loop 0 3 2 None 0%Z OtherUsage (initial_beam 2) frames_blank_A = Some beam /\
    Forall (blank_free 2 0) beam /\
    final_beam 2 0 3 2 None 0%Z OtherUsage 0%Z frames_blank_A = Some final /\
    Forall (blank_free 2 0) final /\
    beam_search 2 0 3 2 None 0%Z OtherUsage 0%Z frames_blank_A = Some out /\
    ~ In 0 out.
Proof.
  assert (H1 : 1 <= 2) by lia.
  assert (H2 : Forall (fun row : list Z => 0 < length row /\ min 2 3 <= length row)
                      frames_blank_A).
  { repeat constructor; cbn; lia. }
  split; [exact H1|]. split; [exact H2|].
  exact (@beam_search_never_emits_blank Z MaxPlusZ 2 0 3 2 None 0%Z OtherUsage 0%Z
           frames_blank_A H1 H2).
Defined.

(** C1 as stated fails: there is no merge step.  With a beam of two, after
    the two frames of [frames_blank_A] both hypotheses of the beam are the
    label sequence [sos; A]: the extension of [sos] by A, and the
    unextended [sos; A], each with the mass of its own path. *)
Lemma beam_keeps_duplicates_counterexample :
  exists e1 e2,
    time_loop 0 3 2 None 0%Z OtherUsage (initial_beam 2) frames_blank_A
    = Some [e1; e2] /\
    hyp e1 = [2; 1] /\ hyp e2 = [2; 1] /\
    p_nb e1 = 0%Z /\ p_nb e2 = (-800)%Z /\
    ~ NoDup (map hyp [e1; e2]).
Proof.
  eexists. eexists. split; [vm_compute; reflexivity|].
  repeat split. cbn. intros Hnd. inversion Hnd as [|? ? Hnotin _]; subst.
  apply Hnotin. now left.
Qed.

(** The beam the amended statement is evaluated at is the beam of two after
    the first frame of [frames_blank_A]; on the second frame two of its
    paths lead to [sos; A], and both are in the new beam. *)
Example paths_meet_on_blank_A :
  step 0 3 2 None 0%Z OtherUsage (initial_beam 2) frame_blank
  = Some beam_after_blank /\
  times [2; 1] (paths 0 None 0%Z OtherUsage frame_A [1; 2] beam_after_blank) = 2 /\
  exists beam',
    step_on 0 3 2 None 0%Z OtherUsage (topk (F := Z)) beam_after_blank frame_A
    = Some beam' /\
    times [2; 1] beam' = 2.
Proof.
  split; [vm_compute; reflexivity|]. split; [vm_compute; reflexivity|].
  eexists. split; vm_compute; reflexivity.
Qed.

(** C1, amended: a time step has no merge, whatever the order in which
    [torch.topk] returns equal entries.  Whenever the step can run, the new
    beam and the hypotheses pruned away are together the paths of the step,
    one hypothesis for each path: one hypothesis of the previous beam left
    unextended or extended by one non-blank label of the top-k, with the
    probability masses of that path alone.  Nothing is pruned before
    [beam_width] hypotheses are kept, and no hypothesis pruned has a score
    above one kept.  So a label sequence is carried by as many hypotheses,
    kept or pruned, as paths lead to it: equal label sequences reached along
    different paths stay separate hypotheses. *)
Theorem step_keeps_paths_separate :
  forall (F : Type) (N : LogNum F) (L : LtLaws F) (blank vocab beam_width : nat)
         (lm : option LM) (lm_weight : F) (lm_usage : LmUsage)
         (topk_call : nat -> list F -> option (list nat))
         (beam : list entry) (row : list F),
    topk_contract topk_call ->
    blank < length row ->
    min beam_width vocab <= length row ->
    exists indices_topk beam' dropped,
      topk_call (min beam_width vocab) row = Some indices_topk /\
      step_on blank vocab beam_width lm lm_weight lm_usage topk_call beam row
      = Some beam' /\
      let new_beam := paths blank lm lm_weight lm_usage row indices_topk beam in
      Permutation (beam' ++ dropped) new_beam /\
      length beam' = min beam_width (length new_beam) /\
      (forall x y, In x beam' -> In y dropped -> flt (score x) (score y) = false) /\
      (forall h, times h beam' + times h dropped = times h new_beam).
Proof.
  intros F N L blank vocab beam_width lm lm_weight lm_usage topk_call beam row
         Hcontract Hb Hk.
  destruct (Hcontract (min beam_width vocab) row) as [_ Hsome].
  destruct (Hsome Hk) as [idx [Hidx _]].
  apply Nat.ltb_lt in Hb.
  set (new_beam := paths blank lm lm_weight lm_usage row idx beam).
  exists idx, (firstn beam_width (sorted_reverse score new_beam)),
         (skipn beam_width (sorted_reverse score new_beam)).
  split; [exact Hidx|]. split.
  { unfold step_on. rewrite Hidx, Hb. cbn [orb].
    now rewrite candidates_paths. }
  cbn zeta. fold new_beam.
  assert (Hperm : Permutation
                    (firstn beam_width (sorted_reverse score new_beam) ++
                     skipn beam_width (sorted_reverse score new_beam)) new_beam).
  { rewrite firstn_skipn. apply sorted_reverse_perm. }
  split; [exact Hperm|].
  split; [now rewrite length_firstn, sorted_reverse_length|].
  split.
  - pose proof (sorted_reverse_descending score new_beam) as Hdesc.
    rewrite <- (firstn_skipn beam_width (sorted_reverse score new_beam)) in Hdesc.
    apply descending_app in Hdesc. exact (proj2 Hdesc).
  - intros h. unfold times. rewrite <- count_occ_app, <- map_app.
    apply Permutation_count_occ. now apply Permutation_map.
Qed.

Lemma step_keeps_paths_separate_witness :
  topk_contract (topk (F := Z)) /\
  0 < length frame_A /\
  min 2 3 <= length frame_A /\
  exists indices_topk beam' dropped,
    topk (min 2 3) frame_A = Some indices_topk /\
    step_on 0 3 2 None 0%Z OtherUsage (topk (F := Z)) beam_after_blank frame_A
    = Some beam' /\
    let new_beam := paths 0 None 0%Z OtherUsage frame_A indices_topk beam_after_blank in
    Permutation (beam' ++ dropped) new_beam /\
    length beam' = min 2 (length new_beam) /\
    (forall x y, In x beam' -> In y dropped -> flt (score x) (score y) = false) /\
    (forall h, times h beam' + times h dropped = times h new_beam).
Proof.
  assert (Hc : topk_contract (topk (F := Z))) by apply topk_meets_contract.
  assert (H0 : 0 < length frame_A) by (cbn; lia).
  assert (H1 : min 2 3 <= length frame_A) by (cbn; lia).
  split; [exact Hc|]. split; [exact H0|]. split; [exact H1|].
  exact (@step_keeps_paths_separate Z MaxPlusZ MaxPlusZ_laws 0 3 2 None 0%Z OtherUsage
           (topk (F := Z)) beam_after_blank frame_A Hc H0 H1).
Defined.

(** ** Decoding without a language model *)

Section NoLM.
Context {F : Type} `{LogNum F}.
Variables eos blank vocab beam_width : nat.
Variable lm_weight : F.

Lemma lm_enabled_none (lm_usage usage : LmUsage) :
  lm_enabled None lm_weight lm_usage usage = None.
Proof. unfold lm_enabled. now destruct (flt zero lm_weight). Qed.

Lemma extend_with_none (u u' : LmUsage) (row : list F) (e : entry) (indices_topk : list nat) :
  forall st,
    fold_left (extend_with blank None lm_weight u row e) indices_topk st =
    fold_left (extend_with blank None lm_weight u' row e) indices_topk st.
Proof.
  induction indices_topk as [|c idx IH]; intros st; cbn; [reflexivity|].
  rewrite IH. f_equal; unfold extend_with; now rewrite ?lm_enabled_none.
Qed.

Lemma candidates_none (u u' : LmUsage) (row : list F) (indices_topk : list nat)
      (beam : list entry) :
  candidates blank None lm_weight u row indices_topk beam =
  candidates blank None lm_weight u' row indices_topk beam.
Proof.
  unfold candidates. generalize (@nil (entry (F := F))).
  induction beam as [|e beam IH]; intros new_beam; cbn; [reflexivity|].
  rewrite IH. f_equal; unfold expand; now rewrite (extend_with_none u u').
Qed.

Lemma time_loop_none (u u' : LmUsage) (log_probs : list (list F)) :
  forall beam,
    time_loop blank vocab beam_width None lm_weight u beam log_probs =
    time_loop blank vocab beam_width None lm_weight u' beam log_probs.
Proof.
  induction log_probs as [|row rows IH]; intros beam; cbn; [reflexivity|].
  unfold step. destruct (topk (min beam_width vocab) row) as [idx|]; [|reflexivity].
  destruct ((blank <? length row) || (length beam =? 0)); [|reflexivity].
  rewrite (candidates_none u u'). apply IH.
Qed.

Lemma final_beam_none (u u' : LmUsage) (length_penalty : F) (log_probs : list (list F)) :
  final_beam eos blank vocab beam_width None lm_weight u length_penalty log_probs =
  final_beam eos blank vocab beam_width None lm_weight u' length_penalty log_probs.
Proof.
  unfold final_beam. rewrite (time_loop_none u u').
  destruct (time_loop blank vocab beam_width None lm_weight u' (initial_beam eos)
                      log_probs); [|reflexivity].
  unfold rescoring. now rewrite !lm_enabled_none.
Qed.
End NoLM.

(** C2 as stated fails: shallow fusion asked for with a positive weight and
    no language model decodes and returns. *)
Lemma fusion_without_lm_counterexample :
  beam_search 2 0 3 2 None 1%Z ShallowFusion 0%Z frames_blank_A = Some [1] /\
  beam_search 2 0 3 2 None 1%Z Rescoring 0%Z frames_blank_A = Some [1].
Proof. split; vm_compute; reflexivity. Qed.

(** C2, amended: without a language model no configuration is rejected.
    Whatever [lm_usage] and [lm_weight], a call that can run (a beam of at
    least one hypothesis, frames wide enough for [topk]) skips fusion and
    rescoring and returns the sequence it returns when [lm_usage] is
    neither of the two. *)
Theorem beam_search_without_lm :
  forall (F : Type) (N : LogNum F) (eos blank vocab beam_width : nat)
         (lm_weight : F) (lm_usage : LmUsage) (length_penalty : F)
         (log_probs : list (list F)),
    1 <= beam_width ->
    Forall (fun row => blank < length row /\ min beam_width vocab <= length row)
           log_probs ->
    exists out,
      beam_search eos blank vocab beam_width None lm_weight lm_usage
                  length_penalty log_probs = Some out /\
      beam_search eos blank vocab beam_width None lm_weight OtherUsage
                  length_penalty log_probs = Some out.
Proof.
  intros F N eos blank vocab beam_width lm_weight lm_usage lp log_probs Hw Hrows.
  destruct (@time_loop_nonempty _ _ blank vocab beam_width None lm_weight OtherUsage
              log_probs Hw Hrows (initial_beam eos)) as [best [beam' Hloop]];
    [discriminate|].
  exists (tl (hyp best)).
  assert (Hother : beam_search eos blank vocab beam_width None lm_weight OtherUsage
                               lp log_probs = Some (tl (hyp best))).
  { unfold beam_search, final_beam. rewrite Hloop. unfold rescoring.
    now rewrite lm_enabled_none. }
  split; [|exact Hother].
  unfold beam_search. rewrite (final_beam_none eos blank vocab beam_width lm_weight
                                 lm_usage OtherUsage lp log_probs).
  exact Hother.
Qed.

Lemma beam_search_without_lm_witness :
  1 <= 2 /\
  Forall (fun row : list Z => 0 < length row /\ min 2 3 <= length row)
         frames_blank_A /\
  exists out,
    beam_search 2 0 3 2 None 1%Z ShallowFusion 0%Z frames_blank_A = Some out /\
    beam_search 2 0 3 2 None 1%Z OtherUsage 0%Z frames_blank_A = Some out.
Proof.
  assert (H1 : 1 <= 2) by lia.
  assert (H2 : Forall (fun row : list Z => 0 < length row /\ min 2 3 <= length row)
                      frames_blank_A).
  { repeat constructor; cbn; lia. }
  split; [exact H1|]. split; [exact H2|].
  exact (@beam_search_without_lm Z MaxPlusZ 2 0 3 2 1%Z ShallowFusion 0%Z
           frames_blank_A H1 H2).
Defined.

(** C9: the body of [beam_search] does not read [length_penalty]: the final
    beam, ranking scores included, and the returned sequence are the same
    for any two values of it. *)
Theorem beam_search_ignores_length_penalty :
  forall (F : Type) (N : LogNum F) (eos blank vocab beam_width : nat)
         (lm : option LM) (lm_weight : F) (lm_usage : LmUsage)
         (length_penalty length_penalty' : F) (log_probs : list (list F)),
    final_beam eos blank vocab beam_width lm lm_weight lm_usage
               length_penalty log_probs =
    final_beam eos blank vocab beam_width lm lm_weight lm_usage
               length_penalty' log_probs /\
    beam_search eos blank vocab beam_width lm lm_weight lm_usage
                length_penalty log_probs =
    beam_search eos blank vocab beam_width lm lm_weight lm_usage
                length_penalty' log_probs.
Proof. intros. split; reflexivity. Qed.

(** The ranking scores on [frames_blank_A] with [length_penalty] 0 and 1:
    one extension in each hypothesis, and the same scores. *)
Example length_penalty_on_blank_A :
  option_map (map (fun e => (hyp e, score e)))
    (final_beam 2 0 3 2 None 0%Z OtherUsage 0%Z frames_blank_A)
  = Some [ ([2; 1], 0%Z); ([2; 1], (-800)%Z) ] /\
  option_map (map (fun e => (hyp e, score e)))
    (final_beam 2 0 3 2 None 0%Z OtherUsage 1%Z frames_blank_A)
  = Some [ ([2; 1], 0%Z); ([2; 1], (-800)%Z) ].
Proof. split; vm_compute; reflexivity. Qed.

(** ** Pruning *)

(** C4 as stated fails on ties: on [frames_blank_A_tied] with a beam of
    three, [sos] left unextended and [sos; A] left unextended have the same
    ranking score after the second frame, and the beam keeps the shorter
    one first. *)
Lemma pruning_tie_counterexample :
  exists e1 e2 e3,
    time_loop 0 3 3 None 0%Z OtherUsage (initial_beam 2) frames_blank_A_tied
    = Some [e1; e2; e3] /\
    score e2 = score e3 /\
    hyp e2 = [2] /\ hyp e3 = [2; 1] /\
    length (hyp e2) < length (hyp e3).
Proof.
  eexists. eexists. eexists. split; [vm_compute; reflexivity|].
  repeat split. cbn. lia.
Qed.

(** C4, amended: whenever the step can run, the new beam is the first
    [beam_width] of the candidates in descending order of ranking score:
    it has [min beam_width (number of candidates)] hypotheses, so at most
    [beam_width]; no hypothesis in it has a score below a later one; no
    candidate left out has a score above one kept; and candidates of equal
    score keep the order in which they were appended (earlier hypotheses
    of the previous beam first, the unextended one before its extensions,
    these in top-k order). *)
Theorem step_prunes_to_beam_width :
  forall (F : Type) (N : LogNum F) (L : LtLaws F) (blank vocab beam_width : nat)
         (lm : option LM) (lm_weight : F) (lm_usage : LmUsage)
         (beam : list entry) (row : list F),
    blank < length row ->
    min beam_width vocab <= length row ->
    exists indices_topk beam',
      topk (min beam_width vocab) row = Some indices_topk /\
      step blank vocab beam_width lm lm_weight lm_usage beam row = Some beam' /\
      let new_beam := candidates blank lm lm_weight lm_usage row indices_topk beam in
      length beam' = min beam_width (length new_beam) /\
      length beam' <= beam_width /\
      descending score beam' /\
      (exists dropped,
          Permutation (beam' ++ dropped) new_beam /\
          forall x y, In x beam' -> In y dropped -> flt (score x) (score y) = false) /\
      (forall v, exists later,
          filter (tied score v) new_beam = filter (tied score v) beam' ++ later).
Proof.
  intros F N L blank vocab beam_width lm lm_weight lm_usage beam row Hb Hk.
  destruct (topk_returns row Hk) as [idx Hidx].
  apply Nat.ltb_lt in Hb.
  exists idx. eexists. split; [exact Hidx|].
  split; [unfold step; rewrite Hidx, Hb; reflexivity|]. cbn zeta.
  set (new_beam := candidates blank lm lm_weight lm_usage row idx beam).
  pose proof (sorted_reverse_descending score new_beam) as Hdesc.
  rewrite <- (firstn_skipn beam_width (sorted_reverse score new_beam)) in Hdesc.
  apply descending_app in Hdesc. destruct Hdesc as [Hfirst Hcut].
  split; [now rewrite length_firstn, sorted_reverse_length|].
  split; [apply firstn_le_length|].
  split; [exact Hfirst|]. split.
  - exists (skipn beam_width (sorted_reverse score new_beam)).
    split; [|exact Hcut]. rewrite firstn_skipn. apply sorted_reverse_perm.
  - intros v. exists (filter (tied score v)
                             (skipn beam_width (sorted_reverse score new_beam))).
    rewrite <- filter_app, firstn_skipn. symmetry. apply sorted_reverse_stable.
Qed.

Lemma step_prunes_to_beam_width_witness :
  0 < length frame_blank /\
  min 2 3 <= length frame_blank /\
  exists indices_topk beam',
    topk (min 2 3) frame_blank = Some indices_topk /\
    step 0 3 2 None 0%Z OtherUsage (initial_beam 2) frame_blank = Some beam' /\
    let new_beam := candidates 0 None 0%Z OtherUsage frame_blank
                               indices_topk (initial_beam 2) in
    length beam' = min 2 (length new_beam) /\
    length beam' <= 2 /\
    descending score beam' /\
    (exists dropped,
        Permutation (beam' ++ dropped) new_beam /\
        forall x y, In x beam' -> In y dropped -> flt (score x) (score y) = false) /\
    (forall v, exists later,
        filter (tied score v) new_beam = filter (tied score v) beam' ++ later).
Proof.
  assert (H0 : 0 < length frame_blank) by (cbn; lia).
  assert (H1 : min 2 3 <= length frame_blank) by (cbn; lia).
  split; [exact H0|]. split; [exact H1|].
  exact (@step_prunes_to_beam_width Z MaxPlusZ MaxPlusZ_laws 0 3 2 None 0%Z OtherUsage
           (initial_beam 2) frame_blank H0 H1).
Defined.

Lemma greedy_no_blank_collapsed_witness :
  Forall dominant frames_A_blank_A /\
  exists indices out,
    Forall2 dominates frames_A_blank_A indices /\
    greedy 0 frames_A_blank_A = Some out /\
    out = remove_blank 0 (collapse_spec indices) /\
    adjacent_equal (collapse_spec indices) = false /\
    ~ In 0 out.
Proof.
  assert (Hdom : Forall dominant frames_A_blank_A).
  { repeat constructor.
    - exists 1. split; [cbn; lia|].
      intros [|[|[|j]]] Hj Hne; cbn in *; try reflexivity; lia.
    - exists 0. split; [cbn; lia|].
      intros [|[|[|j]]] Hj Hne; cbn in *; try reflexivity; lia.
    - exists 1. split; [cbn; lia|].
      intros [|[|[|j]]] Hj Hne; cbn in *; try reflexivity; lia. }
  split; [exact Hdom|].
  exact (@greedy_no_blank_collapsed Z MaxPlusZ MaxPlusZ_laws 0 frames_A_blank_A Hdom).
Defined.

(** * Further properties of the decoders *)

(** ** Greedy decoding: errors, length, labels, frame repeats, concatenation *)

Section GreedyMoreFacts.
Context {F : Type} `{LogNum F}.

Lemma pick_argmax_raised (log_probs : list (list F)) :
  fold_left pick_argmax log_probs None = None.
Proof. induction log_probs as [|row rows IH]; cbn; [reflexivity|exact IH]. Qed.

Lemma argmax_indices_raises (log_probs : list (list F)) :
  In [] log_probs -> forall acc, fold_left pick_argmax log_probs acc = None.
Proof.
  induction log_probs as [|row rows IH]; intros Hin acc; [destruct Hin|].
  cbn. destruct Hin as [->|Hin].
  - destruct acc; cbn; apply pick_argmax_raised.
  - now apply IH.
Qed.

Lemma no_empty_frame (log_probs : list (list F)) :
  ~ In [] log_probs -> Forall (fun row => row <> []) log_probs.
Proof.
  intros Hno. apply Forall_forall. intros row Hrow ->. now apply Hno.
Qed.

Lemma empty_frame_dec (log_probs : list (list F)) :
  In [] log_probs \/ Forall (fun row => row <> []) log_probs.
Proof.
  induction log_probs as [|row rows [IH|IH]].
  - right. constructor.
  - left. now right.
  - destruct row as [|x row]; [left; now left|].
    right. constructor; [discriminate|exact IH].
Qed.

(** What [greedy] returns when no frame is empty. *)
Lemma greedy_returns (blank : nat) (log_probs : list (list F)) :
  Forall (fun row => row <> []) log_probs ->
  greedy blank log_probs =
  Some (remove_blank blank
          (groupby_keys None
             (map (fun row => match argmax row with Some a => a | None => 0 end)
                  log_probs))).
Proof.
  intros Hrows. unfold greedy, argmax_indices.
  now rewrite (argmax_indices_acc Hrows).
Qed.

Lemma greedy_Some_rows (blank : nat) (log_probs : list (list F)) (out : list nat) :
  greedy blank log_probs = Some out ->
  Forall (fun row => row <> []) log_probs.
Proof.
  intros Hout. destruct (empty_frame_dec log_probs) as [Hin|Hrows]; [|exact Hrows].
  unfold greedy, argmax_indices in Hout.
  rewrite (argmax_indices_raises _ Hin) in Hout. discriminate.
Qed.

Lemma groupby_keys_length (l : list nat) :
  forall k, length (groupby_keys k l) <= length l.
Proof.
  induction l as [|x l IH]; intros k; cbn; [lia|].
  destruct k as [p|]; [destruct (x =? p)|]; cbn;
    try (specialize (IH (Some x)); lia).
  specialize (IH (Some p)); lia.
Qed.

Lemma groupby_keys_incl (l : list nat) :
  forall k x, In x (groupby_keys k l) -> In x l.
Proof.
  induction l as [|y l IH]; intros k x Hx; cbn in *; [exact Hx|].
  destruct k as [p|]; [destruct (y =? p)|]; cbn in Hx.
  - right. eapply IH; exact Hx.
  - destruct Hx as [->|Hx]; [now left|right; eapply IH; exact Hx].
  - destruct Hx as [->|Hx]; [now left|right; eapply IH; exact Hx].
Qed.

Lemma groupby_keys_repeat (a : nat) (i1 i2 : list nat) :
  forall k, groupby_keys k (i1 ++ a :: a :: i2) = groupby_keys k (i1 ++ a :: i2).
Proof.
  induction i1 as [|x i1 IH]; intros k.
  - cbn. destruct k as [p|].
    + destruct (a =? p) eqn:E; [reflexivity|]. now rewrite Nat.eqb_refl.
    + now rewrite Nat.eqb_refl.
  - cbn. destruct k as [p|]; [destruct (x =? p)|]; now rewrite IH.
Qed.

Lemma groupby_keys_app (i1 i2 : list nat) :
  forall k, groupby_keys k (i1 ++ i2) =
            groupby_keys k i1 ++ groupby_keys (key_after k i1) i2.
Proof.
  induction i1 as [|x i1 IH]; intros k; [reflexivity|].
  assert (Hafter : key_after k (x :: i1) = key_after (Some x) i1).
  { destruct i1; reflexivity. }
  cbn [app groupby_keys]. destruct k as [p|].
  - destruct (x =? p) eqn:E.
    + apply Nat.eqb_eq in E. subst p. rewrite IH. now rewrite Hafter.
    + cbn [app]. rewrite IH. now rewrite Hafter.
  - cbn [app]. rewrite IH. now rewrite Hafter.
Qed.
End GreedyMoreFacts.

(** X1: [greedy] raises exactly when some frame has no label ([argmax] of
    an empty row); in particular it returns on the empty table. *)
Theorem greedy_raises_iff_empty_frame :
  forall (F : Type) (N : LogNum F) (blank : nat) (log_probs : list (list F)),
    greedy blank log_probs = None <-> In [] log_probs.
Proof.
  intros F N blank log_probs. split.
  - intros Hnone. destruct (empty_frame_dec log_probs) as [Hin|Hrows]; [exact Hin|].
    rewrite (greedy_returns blank Hrows) in Hnone. discriminate.
  - intros Hin. unfold greedy, argmax_indices.
    now rewrite (argmax_indices_raises _ Hin).
Qed.

(** X2: the sequence [greedy] returns is no longer than the table has
    frames. *)
Theorem greedy_output_length :
  forall (F : Type) (N : LogNum F) (blank : nat) (log_probs : list (list F))
         (out : list nat),
    greedy blank log_probs = Some out ->
    length out <= length log_probs.
Proof.
  intros F N blank log_probs out Hout.
  pose proof (greedy_Some_rows _ _ Hout) as Hrows.
  rewrite (greedy_returns blank Hrows) in Hout. injection Hout as <-.
  unfold remove_blank.
  etransitivity; [apply filter_length_le|].
  etransitivity; [apply groupby_keys_length|].
  now rewrite length_map.
Qed.

Lemma greedy_output_length_witness :
  greedy 0 frames_A_blank_A = Some [1; 1] /\
  length [1; 1] <= length frames_A_blank_A.
Proof.
  assert (Hout : greedy 0 frames_A_blank_A = Some [1; 1]) by reflexivity.
  split; [exact Hout|].
  exact (@greedy_output_length Z MaxPlusZ 0 frames_A_blank_A [1; 1] Hout).
Defined.

(** X3: every label [greedy] returns is the [argmax] of some frame of the
    table and is not the blank. *)
Theorem greedy_labels_are_argmax :
  forall (F : Type) (N : LogNum F) (blank : nat) (log_probs : list (list F))
         (out : list nat) (x : nat),
    greedy blank log_probs = Some out ->
    In x out ->
    x <> blank /\ exists row, In row log_probs /\ argmax row = Some x.
Proof.
  intros F N blank log_probs out x Hout Hx.
  pose proof (greedy_Some_rows _ _ Hout) as Hrows.
  rewrite (greedy_returns blank Hrows) in Hout. injection Hout as <-.
  unfold remove_blank in Hx. apply filter_In in Hx. destruct Hx as [Hx Hnb].
  split.
  - intros ->. rewrite Nat.eqb_refl in Hnb. discriminate.
  - apply groupby_keys_incl in Hx. apply in_map_iff in Hx.
    destruct Hx as [row [Hrow Hin]]. exists row. split; [exact Hin|].
    rewrite Forall_forall in Hrows. specialize (Hrows row Hin).
    destruct row as [|v row]; [congruence|]. cbn in *. now subst x.
Qed.

Lemma greedy_labels_are_argmax_witness :
  greedy 0 frames_A_blank_A = Some [1; 1] /\
  In 1 [1; 1] /\
  1 <> 0 /\ exists row, In row frames_A_blank_A /\ argmax row = Some 1.
Proof.
  assert (Hout : greedy 0 frames_A_blank_A = Some [1; 1]) by reflexivity.
  assert (Hin : In 1 [1; 1]) by (cbn; lia).
  split; [exact Hout|]. split; [exact Hin|].
  exact (@greedy_labels_are_argmax Z MaxPlusZ 0 frames_A_blank_A [1; 1] 1 Hout Hin).
Defined.

(** X4: a frame that occurs twice in a row counts once: [greedy] returns
    the same on the table with the second copy removed. *)
Theorem greedy_repeated_frame :
  forall (F : Type) (N : LogNum F) (blank : nat)
         (before after : list (list F)) (row : list F),
    greedy blank (before ++ row :: row :: after) =
    greedy blank (before ++ row :: after).
Proof.
  intros F N blank before after row.
  destruct (empty_frame_dec (before ++ row :: after)) as [Hin|Hrows].
  - assert (Hin2 : In [] (before ++ row :: row :: after)).
    { apply in_app_or in Hin. apply in_or_app.
      destruct Hin as [Hin|Hin]; [now left|right; now right]. }
    unfold greedy, argmax_indices.
    now rewrite (argmax_indices_raises _ Hin), (argmax_indices_raises _ Hin2).
  - assert (Hrows2 : Forall (fun r : list F => r <> []) (before ++ row :: row :: after)).
    { apply Forall_app in Hrows. destruct Hrows as [Hb Ha].
      apply Forall_app. split; [exact Hb|].
      constructor; [now inversion Ha|exact Ha]. }
    rewrite (greedy_returns blank Hrows), (greedy_returns blank Hrows2).
    rewrite !map_app. cbn [map]. now rewrite groupby_keys_repeat.
Qed.

(** X5: decoding composes over a boundary where the label changes: when
    the last frame of a table and the first frame of the next have
    different [argmax], [greedy] on the two tables joined returns the two
    results joined. *)
Theorem greedy_app :
  forall (F : Type) (N : LogNum F) (blank : nat)
         (table1 table2 : list (list F)) (last1 first2 : list F)
         (out1 out2 : list nat),
    greedy blank (table1 ++ [last1]) = Some out1 ->
    greedy blank (first2 :: table2) = Some out2 ->
    argmax last1 <> argmax first2 ->
    greedy blank ((table1 ++ [last1]) ++ first2 :: table2) = Some (out1 ++ out2).
Proof.
  intros F N blank table1 table2 last1 first2 out1 out2 H1 H2 Hne.
  pose proof (greedy_Some_rows _ _ H1) as Hrows1.
  pose proof (greedy_Some_rows _ _ H2) as Hrows2.
  assert (Hrows : Forall (fun r : list F => r <> [])
                         ((table1 ++ [last1]) ++ first2 :: table2)).
  { apply Forall_app. now split. }
  set (am := fun row : list F => match argmax row with Some a => a | None => 0 end).
  assert (E1 : out1 = remove_blank blank
                        (groupby_keys None (map am (table1 ++ [last1])))).
  { rewrite (greedy_returns blank Hrows1) in H1. now injection H1. }
  assert (E2 : out2 = remove_blank blank
                        (groupby_keys None (map am (first2 :: table2)))).
  { rewrite (greedy_returns blank Hrows2) in H2. now injection H2. }
  rewrite (greedy_returns blank Hrows), E1, E2. fold am. f_equal.
  unfold remove_blank. rewrite <- filter_app. f_equal.
  rewrite map_app, groupby_keys_app. f_equal.
  assert (Hkey : key_after None (map am (table1 ++ [last1])) = Some (am last1)).
  { rewrite map_app. cbn [map].
    destruct (map am table1 ++ [am last1]) as [|y l] eqn:E.
    - destruct (map am table1); discriminate.
    - cbn [key_after]. rewrite <- E. now rewrite last_last. }
  rewrite Hkey. cbn [map groupby_keys].
  destruct (am first2 =? am last1) eqn:E; [|reflexivity].
  exfalso. apply Hne. apply Nat.eqb_eq in E.
  apply Forall_app in Hrows1. destruct Hrows1 as [_ Hl]. inversion Hl as [|? ? Hl1 _]; subst.
  inversion Hrows2 as [|? ? Hf2 _]; subst.
  unfold am in E. destruct last1 as [|u l1]; [congruence|].
  destruct first2 as [|v f2]; [congruence|]. cbn in *. now rewrite E.
Qed.

Lemma greedy_app_witness :
  greedy 0 ([ [-800; 0; -900] ] ++ [ [0; -800; -900] ])%Z = Some [1] /\
  greedy 0 ([-800; 0; -900] :: [])%Z = Some [1] /\
  argmax [0; -800; -900]%Z <> argmax [-800; 0; -900]%Z /\
  greedy 0 (([ [-800; 0; -900] ] ++ [ [0; -800; -900] ])
            ++ [-800; 0; -900] :: [])%Z = Some ([1] ++ [1]).
Proof.
  assert (H1 : greedy 0 ([ [-800; 0; -900] ] ++ [ [0; -800; -900] ])%Z = Some [1])
    by reflexivity.
  assert (H2 : greedy 0 ([-800; 0; -900] :: [])%Z = Some [1]) by reflexivity.
  assert (H3 : argmax [0; -800; -900]%Z <> argmax [-800; 0; -900]%Z)
    by (cbn; discriminate).
  split; [exact H1|]. split; [exact H2|]. split; [exact H3|].
  exact (@greedy_app Z MaxPlusZ 0 [ [-800; 0; -900]%Z ] [] [0; -800; -900]%Z
           [-800; 0; -900]%Z [1] [1] H1 H2 H3).
Defined.

(** ** Beam search: edges, lengths, labels, the language model *)

Section BeamMoreFacts.
Context {F : Type} `{LogNum F}.
Variables eos blank vocab beam_width : nat.
Variable lm : option (LM (F := F)).
Variable lm_weight : F.
Variable lm_usage : LmUsage.

#[local] Abbreviation step'' := (step blank vocab beam_width lm lm_weight lm_usage).
#[local] Abbreviation time_loop'' :=
  (time_loop blank vocab beam_width lm lm_weight lm_usage).

Lemma topk_In (k : nat) (row : list F) (indices_topk : list nat) (c : nat) :
  topk k row = Some indices_topk -> In c indices_topk -> c < length row.
Proof.
  unfold topk. destruct (k <=? length row); [|discriminate].
  intros [= <-] Hc. apply In_firstn, sorted_reverse_In, in_seq in Hc. lia.
Qed.

(** An invariant of the hypotheses that every time step keeps is kept by
    the loop. *)
Lemma time_loop_invariant (P : entry (F := F) -> Prop) :
  (forall row e, P e -> P (not_extended blank lm_weight row e)) ->
  (forall row e clm c indices_topk,
      P e -> topk (min beam_width vocab) row = Some indices_topk ->
      In c indices_topk -> c <> blank ->
      P (extended lm_weight row e clm c)) ->
  forall log_probs beam beam',
    time_loop'' beam log_probs = Some beam' ->
    Forall P beam -> Forall P beam'.
Proof.
  intros Hnot Hext. induction log_probs as [|row rows IH];
    intros beam beam' Hloop Hbeam; cbn in Hloop.
  - now injection Hloop as <-.
  - destruct (step'' beam row) as [beam1|] eqn:E; [|discriminate].
    apply (IH beam1 beam' Hloop). rewrite Forall_forall in *. intros x Hx.
    destruct (@step_In _ _ _ _ _ _ _ _ _ _ _ _ E Hx)
      as [idx [e [Hidx [He [->|[c [clm [Hc [Hb ->]]]]]]]]].
    + apply Hnot. now apply Hbeam.
    + eapply Hext; eauto.
Qed.

Lemma rescoring_hyps (beam : list entry) :
  Permutation (map hyp (rescoring eos lm lm_weight lm_usage beam)) (map hyp beam).
Proof.
  unfold rescoring.
  destruct (lm_enabled lm lm_weight lm_usage Rescoring) as [m|]; [|reflexivity].
  rewrite (Permutation_map hyp (sorted_reverse_perm score _)).
  assert (Hacc : forall new_beam,
             map hyp (fold_left (fun nb e => nb ++ [rescored eos lm_weight m e])
                                beam new_beam)
             = map hyp new_beam ++ map hyp beam).
  { induction beam as [|e beam IH]; intros new_beam; cbn.
    - now rewrite app_nil_r.
    - rewrite IH, map_app, <- app_assoc. reflexivity. }
  now rewrite (Hacc []).
Qed.

Lemma rescoring_In (beam : list entry) (x : entry) :
  In x (rescoring eos lm lm_weight lm_usage beam) ->
  exists e, In e beam /\ hyp x = hyp e.
Proof.
  intros Hx. apply (in_map hyp) in Hx.
  apply (Permutation_in _ (rescoring_hyps beam)) in Hx.
  apply in_map_iff in Hx. destruct Hx as [e [He Hin]]. exists e. now split.
Qed.

Lemma time_loop_zero_width (log_probs : list (list F)) :
  beam_width = 0 ->
  time_loop'' [] log_probs = Some [].
Proof.
  intros ->. induction log_probs as [|row rows IH]; [reflexivity|].
  cbn. unfold step, topk. cbn. rewrite orb_true_r. exact IH.
Qed.
End BeamMoreFacts.

(** X6: on a table of no frame [beam_search] returns the empty sequence,
    whatever the beam width, the language model and its use. *)
Theorem beam_search_empty_table :
  forall (F : Type) (N : LogNum F) (eos blank vocab beam_width : nat)
         (lm : option LM) (lm_weight : F) (lm_usage : LmUsage)
         (length_penalty : F),
    beam_search eos blank vocab beam_width lm lm_weight lm_usage
                length_penalty [] = Some [].
Proof.
  intros. unfold beam_search, final_beam, rescoring. cbn [time_loop].
  destruct (lm_enabled lm lm_weight lm_usage Rescoring); reflexivity.
Qed.

(** X7: with a beam of width 0 [beam_search] raises on every table that has
    a frame: the first pruning empties the beam and [beam[0]] fails. *)
Theorem beam_search_zero_width_raises :
  forall (F : Type) (N : LogNum F) (eos blank vocab : nat)
         (lm : option LM) (lm_weight : F) (lm_usage : LmUsage)
         (length_penalty : F) (log_probs : list (list F)),
    log_probs <> [] ->
    beam_search eos blank vocab 0 lm lm_weight lm_usage
                length_penalty log_probs = None.
Proof.
  intros F N eos blank vocab lm lm_weight lm_usage lp log_probs Hne.
  destruct log_probs as [|row rows]; [congruence|].
  unfold beam_search, final_beam. cbn [time_loop].
  unfold step at 1. unfold topk. cbn [Nat.min Nat.leb firstn].
  destruct ((blank <? length row) || (length (initial_beam eos) =? 0));
    [|reflexivity].
  rewrite (time_loop_zero_width blank vocab lm lm_weight lm_usage rows eq_refl).
  unfold rescoring.
  destruct (lm_enabled lm lm_weight lm_usage Rescoring); reflexivity.
Qed.

Lemma beam_search_zero_width_raises_witness :
  frames_blank_A <> [] /\
  beam_search 2 0 3 0 None 0%Z OtherUsage 0%Z frames_blank_A = None.
Proof.
  assert (Hne : frames_blank_A <> []) by discriminate.
  split; [exact Hne|].
  exact (@beam_search_zero_width_raises Z MaxPlusZ 2 0 3 None 0%Z OtherUsage 0%Z
           frames_blank_A Hne).
Defined.

(** X8: the sequence [beam_search] returns is no longer than the table has
    frames: a time step extends a hypothesis by at most one label. *)
Theorem beam_search_output_length :
  forall (F : Type) (N : LogNum F) (eos blank vocab beam_width : nat)
         (lm : option LM) (lm_weight : F) (lm_usage : LmUsage)
         (length_penalty : F) (log_probs : list (list F)) (out : list nat),
    beam_search eos blank vocab beam_width lm lm_weight lm_usage
                length_penalty log_probs = Some out ->
    length out <= length log_probs.
Proof.
  intros F N eos blank vocab beam_width lm lm_weight lm_usage lp log_probs out.
  unfold beam_search, final_beam.
  destruct (time_loop blank vocab beam_width lm lm_weight lm_usage
                      (initial_beam eos) log_probs) as [beam|] eqn:Hloop;
    [|discriminate].
  destruct (rescoring eos lm lm_weight lm_usage beam) as [|best rest] eqn:Hres;
    [discriminate|].
  intros [= <-].
  assert (Hgen : forall rows b b' n,
             time_loop blank vocab beam_width lm lm_weight lm_usage b rows = Some b' ->
             Forall (fun e => length (hyp e) <= n) b ->
             Forall (fun e => length (hyp e) <= n + length rows) b').
  { induction rows as [|row rows IH]; intros b b' n Hl Hb; cbn in Hl.
    - injection Hl as <-. cbn. now rewrite Nat.add_0_r.
    - destruct (step blank vocab beam_width lm lm_weight lm_usage b row)
        as [b1|] eqn:E; [|discriminate].
      cbn [length]. replace (n + S (length rows)) with (S n + length rows) by lia.
      apply (IH b1 b' (S n) Hl). rewrite Forall_forall in *. intros x Hx.
      destruct (@step_In _ _ _ _ _ _ _ _ _ _ _ _ E Hx)
        as [idx [e [_ [He [->|[c [clm [_ [_ ->]]]]]]]]]; cbn.
      + specialize (Hb e He). lia.
      + rewrite length_app. cbn. specialize (Hb e He). lia. }
  assert (Hbeam : Forall (fun e => length (hyp e) <= 1 + length log_probs) beam).
  { apply (Hgen log_probs (initial_beam eos) beam 1 Hloop).
    constructor; [cbn; lia|constructor]. }
  assert (Hbest : In best (rescoring eos lm lm_weight lm_usage beam))
    by (rewrite Hres; now left).
  destruct (rescoring_In _ _ _ _ _ _ Hbest) as [e [He Hhyp]].
  rewrite Forall_forall in Hbeam. specialize (Hbeam e He).
  rewrite Hhyp. destruct (hyp e); cbn in *; lia.
Qed.

Lemma beam_search_output_length_witness :
  beam_search 2 0 3 2 None 0%Z OtherUsage 0%Z frames_blank_A = Some [1] /\
  length [1] <= length frames_blank_A.
Proof.
  assert (Hout : beam_search 2 0 3 2 None 0%Z OtherUsage 0%Z frames_blank_A = Some [1])
    by (vm_compute; reflexivity).
  split; [exact Hout|].
  exact (@beam_search_output_length Z MaxPlusZ 2 0 3 2 None 0%Z OtherUsage 0%Z
           frames_blank_A [1] Hout).
Defined.

(** X9: every label [beam_search] returns was among the labels the call of
    [torch.topk] returned for some frame of the table, whatever the order
    in which it returns equal entries, and so is a label of that frame. *)
Theorem beam_search_labels_from_topk :
  forall (F : Type) (N : LogNum F) (eos blank vocab beam_width : nat)
         (lm : option LM) (lm_weight : F) (lm_usage : LmUsage)
         (topk_call : nat -> list F -> option (list nat))
         (length_penalty : F) (log_probs : list (list F)) (out : list nat) (c : nat),
    topk_contract topk_call ->
    beam_search_on eos blank vocab beam_width lm lm_weight lm_usage topk_call
                   length_penalty log_probs = Some out ->
    In c out ->
    exists row indices_topk,
      In row log_probs /\
      topk_call (min beam_width vocab) row = Some indices_topk /\
      In c indices_topk /\ c < length row.
Proof.
  intros F N eos blank vocab beam_width lm lm_weight lm_usage topk_call lp
         log_probs out c Hcontract.
  unfold beam_search_on, final_beam_on.
  destruct (time_loop_on blank vocab beam_width lm lm_weight lm_usage topk_call
                         (initial_beam eos) log_probs) as [beam|] eqn:Hloop;
    [|discriminate].
  destruct (rescoring eos lm lm_weight lm_usage beam) as [|best rest] eqn:Hres;
    [discriminate|].
  intros [= <-] Hc.
  set (P := fun (rows : list (list F)) (e : entry (F := F)) =>
              forall c, In c (tl (hyp e)) ->
                exists row idx, In row rows /\
                  topk_call (min beam_width vocab) row = Some idx /\
                  In c idx /\ c < length row).
  assert (Hgen : forall rows seen b b',
             time_loop_on blank vocab beam_width lm lm_weight lm_usage topk_call
                          b rows = Some b' ->
             Forall (fun e => hyp e <> []) b ->
             Forall (P seen) b ->
             Forall (fun e => hyp e <> []) b' /\ Forall (P (seen ++ rows)) b').
  { induction rows as [|row rows IH]; intros seen b b' Hl Hne Hb; cbn in Hl.
    - injection Hl as <-. now rewrite app_nil_r.
    - destruct (step_on blank vocab beam_width lm lm_weight lm_usage topk_call b row)
        as [b1|] eqn:E; [|discriminate].
      replace (seen ++ row :: rows) with ((seen ++ [row]) ++ rows)
        by (now rewrite <- app_assoc).
      apply (IH (seen ++ [row]) b1 b' Hl).
      + rewrite Forall_forall in *. intros x Hx.
        destruct (@step_on_In _ _ _ _ _ _ _ _ _ _ _ _ _ E Hx)
          as [idx [e [_ [He [->|[c0 [clm [_ [_ ->]]]]]]]]]; cbn.
        * now apply Hne.
        * intros Hnil. apply app_eq_nil in Hnil. destruct Hnil; discriminate.
      + rewrite Forall_forall in *. intros x Hx.
        destruct (@step_on_In _ _ _ _ _ _ _ _ _ _ _ _ _ E Hx)
          as [idx [e [Hidx [He [->|[c0 [clm [Hc0 [_ ->]]]]]]]]]; unfold P; cbn.
        * intros c1 Hc1. destruct (Hb e He c1 Hc1) as [r [i [Hr Hrest]]].
          exists r, i. split; [apply in_or_app; now left|exact Hrest].
        * intros c1 Hc1. specialize (Hne e He).
          destruct (hyp e) as [|h0 hs] eqn:Eh; [congruence|]. cbn in Hc1.
          apply in_app_or in Hc1. destruct Hc1 as [Hc1|[<-|[]]].
          -- assert (Hin : In c1 (tl (hyp e))) by (rewrite Eh; exact Hc1).
             destruct (Hb e He c1 Hin) as [r [i [Hr Hrest]]].
             exists r, i. split; [apply in_or_app; now left|exact Hrest].
          -- exists row, idx. split; [apply in_or_app; right; now left|].
             split; [exact Hidx|]. split; [exact Hc0|].
             pose proof (@contract_labels _ _ topk_call _ row idx Hcontract Hidx) as Hrange.
             rewrite Forall_forall in Hrange. now apply Hrange. }
  destruct (Hgen log_probs [] (initial_beam eos) beam Hloop) as [_ Hbeam].
  - constructor; [discriminate|constructor].
  - constructor; [intros c0 []|constructor].
  - assert (Hbest : In best (rescoring eos lm lm_weight lm_usage beam))
      by (rewrite Hres; now left).
    destruct (rescoring_In _ _ _ _ _ _ Hbest) as [e [He Hhyp]].
    rewrite Forall_forall in Hbeam. apply (Hbeam e He c). now rewrite <- Hhyp.
Qed.

Lemma beam_search_labels_from_topk_witness :
  topk_contract (topk (F := Z)) /\
  beam_search_on 2 0 3 2 None 0%Z OtherUsage (topk (F := Z)) 0%Z frames_blank_A
  = Some [1] /\
  In 1 [1] /\
  exists row indices_topk,
    In row frames_blank_A /\
    topk (min 2 3) row = Some indices_topk /\
    In 1 indices_topk /\ 1 < length row.
Proof.
  assert (Hc : topk_contract (topk (F := Z))) by apply topk_meets_contract.
  assert (Hout : beam_search_on 2 0 3 2 None 0%Z OtherUsage (topk (F := Z)) 0%Z
                                frames_blank_A = Some [1])
    by (vm_compute; reflexivity).
  assert (Hin : In 1 [1]) by (cbn; lia).
  split; [exact Hc|]. split; [exact Hout|]. split; [exact Hin|].
  exact (@beam_search_labels_from_topk Z MaxPlusZ 2 0 3 2 None 0%Z OtherUsage
           (topk (F := Z)) 0%Z frames_blank_A [1] 1 Hc Hout Hin).
Defined.

(** X10: the state of the language model never advances: every hypothesis
    of every beam carries [clm_hxs = None] and [clm_cxs = None], so that
    shallow fusion scores each label from the initial state. *)
Theorem beam_search_lm_state_stays_initial :
  forall (F : Type) (N : LogNum F) (eos blank vocab beam_width : nat)
         (lm : option LM) (lm_weight : F) (lm_usage : LmUsage)
         (log_probs : list (list F)) (beam : list entry),
    time_loop blank vocab beam_width lm lm_weight lm_usage
              (initial_beam eos) log_probs = Some beam ->
    Forall (fun e => clm_hxs e = None /\ clm_cxs e = None) beam.
Proof.
  intros F N eos blank vocab beam_width lm lm_weight lm_usage log_probs beam Hloop.
  eapply time_loop_invariant; [| |exact Hloop|].
  - intros row e He. exact He.
  - intros row e clm c idx He _ _ _. exact He.
  - constructor; [split; reflexivity|constructor].
Qed.

Lemma beam_search_lm_state_stays_initial_witness :
  exists beam,
    time_loop 0 3 2 (Some lm_A) 1%Z ShallowFusion (initial_beam 2) frames_blank_A
    = Some beam /\
    Forall (fun e => clm_hxs e = None /\ clm_cxs e = None) beam.
Proof.
  eexists. split; [vm_compute; reflexivity|].
  refine (@beam_search_lm_state_stays_initial Z MaxPlusZ 2 0 3 2 (Some lm_A) 1%Z
            ShallowFusion frames_blank_A _ _).
  vm_compute. reflexivity.
Defined.

Section LMDisabled.
Context {F : Type} `{LogNum F}.
Variables eos blank vocab beam_width : nat.
Variables lm lm' : option (LM (F := F)).
Variable lm_weight : F.
Variables u u' : LmUsage.
Hypothesis not_positive : flt zero lm_weight = false.

Lemma lm_enabled_not_positive (l : option LM) (usage usage' : LmUsage) :
  lm_enabled l lm_weight usage usage' = None.
Proof. unfold lm_enabled. now rewrite not_positive. Qed.

Lemma extend_with_not_positive (row : list F) (e : entry) (indices_topk : list nat) :
  forall st,
    fold_left (extend_with blank lm lm_weight u row e) indices_topk st =
    fold_left (extend_with blank lm' lm_weight u' row e) indices_topk st.
Proof.
  induction indices_topk as [|c idx IH]; intros st; cbn; [reflexivity|].
  rewrite IH. f_equal; unfold extend_with; now rewrite ?lm_enabled_not_positive.
Qed.

Lemma candidates_not_positive (row : list F) (indices_topk : list nat)
      (beam : list entry) :
  candidates blank lm lm_weight u row indices_topk beam =
  candidates blank lm' lm_weight u' row indices_topk beam.
Proof.
  unfold candidates. generalize (@nil (entry (F := F))).
  induction beam as [|e beam IH]; intros new_beam; cbn; [reflexivity|].
  rewrite IH. f_equal; unfold expand; now rewrite extend_with_not_positive.
Qed.

Lemma time_loop_not_positive (log_probs : list (list F)) :
  forall beam,
    time_loop blank vocab beam_width lm lm_weight u beam log_probs =
    time_loop blank vocab beam_width lm' lm_weight u' beam log_probs.
Proof.
  induction log_probs as [|row rows IH]; intros beam; cbn; [reflexivity|].
  unfold step. destruct (topk (min beam_width vocab) row) as [idx|]; [|reflexivity].
  destruct ((blank <? length row) || (length beam =? 0)); [|reflexivity].
  rewrite candidates_not_positive. apply IH.
Qed.
End LMDisabled.

(** X11: a weight that is not positive switches the language model off:
    the final beam, scores included, and the returned sequence are the
    same with any language model, or none, and any [lm_usage]. *)
Theorem beam_search_weight_not_positive :
  forall (F : Type) (N : LogNum F) (eos blank vocab beam_width : nat)
         (lm lm' : option LM) (lm_weight : F) (lm_usage lm_usage' : LmUsage)
         (length_penalty : F) (log_probs : list (list F)),
    flt zero lm_weight = false ->
    final_beam eos blank vocab beam_width lm lm_weight lm_usage
               length_penalty log_probs =
    final_beam eos blank vocab beam_width lm' lm_weight lm_usage'
               length_penalty log_probs /\
    beam_search eos blank vocab beam_width lm lm_weight lm_usage
                length_penalty log_probs =
    beam_search eos blank vocab beam_width lm' lm_weight lm_usage'
                length_penalty log_probs.
Proof.
  intros F N eos blank vocab beam_width lm lm' w u u' lp log_probs Hw.
  assert (Hfinal : final_beam eos blank vocab beam_width lm w u lp log_probs =
                   final_beam eos blank vocab beam_width lm' w u' lp log_probs).
  { unfold final_beam.
    rewrite (@time_loop_not_positive _ _ blank vocab beam_width lm lm' w u u' Hw).
    destruct (time_loop blank vocab beam_width lm' w u' (initial_beam eos) log_probs);
      [|reflexivity].
    unfold rescoring. now rewrite !(@lm_enabled_not_positive _ _ w Hw). }
  split; [exact Hfinal|]. unfold beam_search. now rewrite Hfinal.
Qed.

Lemma beam_search_weight_not_positive_witness :
  flt zero 0%Z = false /\
  final_beam 2 0 3 2 (Some lm_A) 0%Z ShallowFusion 0%Z frames_blank_A =
  final_beam 2 0 3 2 None 0%Z Rescoring 0%Z frames_blank_A /\
  beam_search 2 0 3 2 (Some lm_A) 0%Z ShallowFusion 0%Z frames_blank_A =
  beam_search 2 0 3 2 None 0%Z Rescoring 0%Z frames_blank_A.
Proof.
  assert (Hw : flt zero 0%Z = false) by reflexivity.
  split; [exact Hw|].
  exact (@beam_search_weight_not_positive Z MaxPlusZ 2 0 3 2 (Some lm_A) None 0%Z
           ShallowFusion Rescoring 0%Z frames_blank_A Hw).
Defined.



(** X13: a time step makes, from every hypothesis of the beam, the
    unextended one and one extension for each top-k label that is not the
    blank: the candidates number the beam times one plus these labels. *)
Theorem candidates_count :
  forall (F : Type) (N : LogNum F) (blank : nat)
         (lm : option LM) (lm_weight : F) (lm_usage : LmUsage)
         (row : list F) (indices_topk : list nat) (beam : list entry),
    length (candidates blank lm lm_weight lm_usage row indices_topk beam) =
    length beam *
    (1 + length (filter (fun c => negb (c =? blank)) indices_topk)).
Proof.
  intros F N blank lm w u row idx beam.
  assert (Hext : forall e i st,
             length (snd (fold_left (extend_with blank lm w u row e) i st)) =
             length (snd st) + length (filter (fun c => negb (c =? blank)) i)).
  { intros e. induction i as [|c i IH]; intros st; cbn; [lia|].
    rewrite IH. unfold extend_with. destruct (c =? blank); cbn; [lia|].
    rewrite length_app. cbn. lia. }
  assert (Hgen : forall b new_beam,
             length (fold_left (expand blank lm w u row idx) b new_beam) =
             length new_beam +
             length b * (1 + length (filter (fun c => negb (c =? blank)) idx))).
  { induction b as [|e b IH]; intros new_beam; cbn [fold_left length]; [lia|].
    rewrite IH. unfold expand. rewrite Hext. cbn [snd]. rewrite length_app.
    cbn [length]. lia. }
  apply (Hgen beam []).
Qed.

(** X14: the hypothesis of the start-of-sentence label alone never gets
    non-blank mass: in every beam a hypothesis without a label after the
    first has [p_nb = LOG_0]. *)
Theorem beam_search_empty_prefix_mass :
  forall (F : Type) (N : LogNum F) (eos blank vocab beam_width : nat)
         (lm : option LM) (lm_weight : F) (lm_usage : LmUsage)
         (log_probs : list (list F)) (beam : list entry),
    time_loop blank vocab beam_width lm lm_weight lm_usage
              (initial_beam eos) log_probs = Some beam ->
    Forall (fun e => 1 <= length (hyp e) /\
                     (length (hyp e) = 1 -> p_nb e = LOG_0)) beam.
Proof.
  intros F N eos blank vocab beam_width lm lm_weight lm_usage log_probs beam Hloop.
  eapply time_loop_invariant; [| |exact Hloop|].
  - intros row e [Hlen He]. cbn. split; [exact Hlen|].
    intros H1. rewrite H1. reflexivity.
  - intros row e clm c idx [Hlen _] _ _ _. cbn. rewrite length_app. cbn.
    split; lia.
  - constructor; [split; [cbn; lia|reflexivity]|constructor].
Qed.

Lemma beam_search_empty_prefix_mass_witness :
  exists beam,
    time_loop 0 3 2 None 0%Z OtherUsage (initial_beam 2) [frame_blank] = Some beam /\
    Forall (fun e => 1 <= length (hyp e) /\
                     (length (hyp e) = 1 -> p_nb e = LOG_0)) beam.
Proof.
  eexists. split; [vm_compute; reflexivity|].
  refine (@beam_search_empty_prefix_mass Z MaxPlusZ 2 0 3 2 None 0%Z OtherUsage
            [frame_blank] _ _).
  vm_compute. reflexivity.
Defined.

(** ** The prefix scorer: the blank track, the prefix score, shapes, memory *)

Section CallMoreFacts.
Context {F : Type} `{LogNum F}.
Variable log_probs : list (list F).
Variables blank eos : nat.
Variable uninit : nat -> nat -> nat -> F.
Variables hyp cs : list nat.
Variable r_prev : state (F := F).

Hypothesis start_in_table : start hyp <= xlen log_probs.

#[local] Abbreviation fwd := (forward log_probs blank hyp cs r_prev).
#[local] Abbreviation r0 := (r_init log_probs uninit hyp cs).
#[local] Abbreviation psi0 := (fst (srow (r_init log_probs uninit hyp cs) (start hyp - 1))).

Lemma forward_keeps_length (ts : list nat) :
  forall st, length (fst (fold_left fwd ts st)) = length (fst st).
Proof.
  induction ts as [|t ts IH]; intros st; cbn [fold_left]; [reflexivity|].
  rewrite IH. unfold forward. cbn [fst]. now rewrite !update_length.
Qed.

Lemma forward_keeps_other_rows (ts : list nat) (t : nat) :
  ~ In t ts ->
  forall st, srow (fst (fold_left fwd ts st)) t = srow (fst st) t.
Proof.
  induction ts as [|t' ts IH]; intros Hnot st; cbn [fold_left]; [reflexivity|].
  rewrite IH by (intros Hin; apply Hnot; now right).
  unfold forward, srow. cbn [fst].
  rewrite !nth_update_other; [reflexivity| |]; intros ->; apply Hnot; now left.
Qed.

Lemma forward_psi (ts : list nat) :
  forall st, snd (fold_left fwd ts st) = psi_loop log_probs hyp cs r_prev ts (snd st).
Proof.
  unfold psi_loop. induction ts as [|t ts IH]; intros st; cbn [fold_left];
    [reflexivity|].
  rewrite IH. reflexivity.
Qed.

Lemma r_init_start_row_blank :
  length (snd (srow r0 (start hyp - 1))) = length cs.
Proof.
  assert (Hal : length (r_alloc log_probs uninit cs) = xlen log_probs).
  { unfold r_alloc. now rewrite length_map, length_seq. }
  unfold start, ylen, r_init, ylen, srow in *.
  destruct (length hyp - 1) as [|y] eqn:E.
  - cbn [Nat.eqb Nat.max Nat.sub]. cbn in start_in_table.
    rewrite nth_update_same by lia. cbn [snd]. apply repeat_length.
  - cbn [Nat.eqb]. replace (Nat.max (S y) 1) with (S y) in * by lia.
    rewrite nth_update_same by lia. cbn [snd]. apply repeat_length.
Qed.

Lemma forward_loop_blank (k : nat) :
  start hyp + k <= xlen log_probs ->
  forward_inv_blank log_probs blank hyp cs k
    (fold_left fwd (seq (start hyp) k) (r0, psi0)).
Proof.
  assert (Hs : 1 <= start hyp) by (unfold start; lia).
  induction k as [|k IH]; intros Hk.
  - cbn [seq fold_left]. unfold forward_inv_blank. cbn [fst snd]. split.
    + intros t Hlo Hhi. replace t with (start hyp - 1) by lia.
      apply r_init_start_row_blank.
    + intros t Hlo Hhi. lia.
  - pose proof (@forward_loop _ _ log_probs blank uninit hyp cs r_prev
                  start_in_table k ltac:(lia)) as [Hlen [_ [Hnb _]]].
    destruct IH as [Hrows Hrec]; [lia|].
    rewrite seq_S, fold_left_app. cbn [fold_left].
    set (st := fold_left _ (seq (start hyp) k) _) in *.
    destruct st as [r psi]. cbn [fst snd] in *.
    unfold forward. cbn [fst snd].
    set (t0 := start hyp + k) in *.
    set (r1 := update r t0 _).
    assert (Hprev : srow r1 (t0 - 1) = srow r (t0 - 1)).
    { unfold r1, srow. apply nth_update_other. unfold t0. lia. }
    rewrite Hprev.
    set (bl := map (fun v => fadd v (log_prob log_probs t0 blank))
                   (vmap2 logaddexp (fst (srow r (t0 - 1))) (snd (srow r (t0 - 1))))).
    assert (Hbl : length bl = length cs).
    { unfold bl. rewrite length_map, vmap2_length.
      rewrite Hnb, Hrows by (unfold t0; lia). lia. }
    assert (Hrow : forall t, snd (srow (update r1 t0 (fun row => (fst row, bl))) t)
                             = if t =? t0 then bl else snd (srow r t)).
    { intros t. unfold srow at 1. destruct (Nat.eqb_spec t t0) as [->|Hne].
      - rewrite nth_update_same; [reflexivity|].
        unfold r1. rewrite update_length. lia.
      - rewrite nth_update_other by exact Hne. unfold r1.
        now rewrite nth_update_other by exact Hne. }
    assert (Hrowf : forall t, t <> t0 ->
                      fst (srow (update r1 t0 (fun row => (fst row, bl))) t)
                      = fst (srow r t)).
    { intros t Hne. unfold srow at 1. rewrite nth_update_other by exact Hne.
      unfold r1. now rewrite nth_update_other by exact Hne. }
    unfold forward_inv_blank. cbn [fst snd]. split.
    + intros t Hlo Hhi. rewrite Hrow.
      destruct (Nat.eqb_spec t t0) as [->|Hne]; [exact Hbl|].
      apply Hrows; [exact Hlo|unfold t0 in *; lia].
    + intros t Hlo Hhi. rewrite !Hrow.
      destruct (Nat.eqb_spec t t0) as [->|Hne].
      * destruct (Nat.eqb_spec (t0 - 1) t0) as [E|_]; [unfold t0 in E; lia|].
        rewrite Hrowf by (unfold t0; lia). reflexivity.
      * destruct (Nat.eqb_spec (t - 1) t0) as [E|_]; [unfold t0 in *; lia|].
        rewrite Hrowf by (unfold t0 in *; lia).
        apply Hrec; [exact Hlo|unfold t0 in *; lia].
Qed.

Lemma psi_loop_length (ts : list nat) :
  forall psi, length psi = length cs ->
              length (psi_loop log_probs hyp cs r_prev ts psi) = length cs.
Proof.
  unfold psi_loop. induction ts as [|t ts IH]; intros psi Hpsi; cbn [fold_left];
    [exact Hpsi|].
  apply IH. rewrite !vmap2_length, log_phi_length, xs_length. lia.
Qed.

Lemma psi_loop_nth (i c : nat) (ts : list nat) :
  nth_error cs i = Some c ->
  forall psi, length psi = length cs ->
    nth i (psi_loop log_probs hyp cs r_prev ts psi) zero =
    fold_left (fun acc t =>
                 logaddexp acc (fadd (nth i (log_phi hyp cs r_prev (t - 1)) zero)
                                     (log_prob log_probs t c)))
              ts (nth i psi zero).
Proof.
  intros Hc. assert (Hi : i < length cs) by (apply nth_error_Some; congruence).
  unfold psi_loop. induction ts as [|t ts IH]; intros psi Hpsi; cbn [fold_left];
    [reflexivity|].
  rewrite IH by (rewrite !vmap2_length, log_phi_length, xs_length; lia).
  f_equal. rewrite vmap2_nth; [rewrite vmap2_nth| |].
  - unfold xs. rewrite (nth_map_in _ _ _ 0) by exact Hi.
    now rewrite (nth_error_nth _ _ 0 Hc).
  - rewrite log_phi_length. exact Hi.
  - rewrite xs_length. exact Hi.
  - rewrite Hpsi. exact Hi.
  - rewrite vmap2_length, log_phi_length, xs_length. lia.
Qed.

Lemma r_init_start_values (i c : nat) :
  nth_error cs i = Some c ->
  nth i (fst (srow r0 (start hyp - 1))) zero =
  (if ylen hyp =? 0 then log_prob log_probs 0 c else logzero) /\
  nth i (snd (srow r0 (start hyp - 1))) zero = logzero.
Proof.
  intros Hc. assert (Hi : i < length cs) by (apply nth_error_Some; congruence).
  assert (Hal : length (r_alloc log_probs uninit cs) = xlen log_probs).
  { unfold r_alloc. now rewrite length_map, length_seq. }
  assert (Hrow : forall t f, t < xlen log_probs ->
                   srow (update (r_alloc log_probs uninit cs) t f) t =
                   f (srow (r_alloc log_probs uninit cs) t)).
  { intros t f Ht. unfold srow. apply nth_update_same. lia. }
  unfold r_init. destruct (Nat.eqb_spec (ylen hyp) 0) as [E|E].
  - assert (Hs : start hyp - 1 = 0) by (unfold start; lia).
    rewrite Hs, Hrow by (unfold start in start_in_table; lia).
    cbn [fst snd]. unfold xs.
    rewrite (nth_map_in _ _ _ 0) by exact Hi.
    rewrite (nth_error_nth _ _ 0 Hc).
    now rewrite nth_repeat_lt by exact Hi.
  - assert (Hs : start hyp - 1 = ylen hyp - 1) by (unfold start; lia).
    rewrite Hs, Hrow by (unfold start in start_in_table; lia).
    cbn [fst snd].
    now rewrite nth_repeat_lt by exact Hi.
Qed.
End CallMoreFacts.

Section CallResultFacts.
Context {F : Type} `{LogNum F}.

Lemma set_eos_other (eos : nat) (v : F) (cs : list nat) :
  forall log_psi i c,
    length log_psi = length cs ->
    nth_error cs i = Some c -> c <> eos ->
    nth_error (set_eos eos cs v log_psi) i = Some (nth i log_psi zero).
Proof.
  unfold set_eos. induction cs as [|c0 cs IH]; intros [|x psi] [|i] c Hlen Hi Hne;
    cbn in *; try discriminate.
  - injection Hi as ->. destruct (Nat.eqb_spec c eos); [contradiction|reflexivity].
  - apply (IH psi i c); [lia|exact Hi|exact Hne].
Qed.

Lemma rollaxis_length (n : nat) (r : states (F := F)) :
  length (rollaxis n r) = n.
Proof. unfold rollaxis. now rewrite length_map, length_seq. Qed.

Lemma rollaxis_state_length (n : nat) (r : states (F := F)) (i : nat) :
  i < n -> length (nth i (rollaxis n r) []) = length r.
Proof.
  intros Hi. unfold rollaxis.
  rewrite (nth_map_in _ _ _ 0) by (rewrite length_seq; exact Hi).
  now rewrite length_map.
Qed.

Lemma forallb_false {A : Type} (p : A -> bool) (l : list A) :
  forallb p l = false <-> exists x, In x l /\ p x = false.
Proof.
  induction l as [|a l IH]; cbn [forallb].
  - split; [discriminate|]. intros [x [[] _]].
  - destruct (p a) eqn:E; cbn [andb].
    + rewrite IH. split.
      * intros [x [Hx Hp]]. exists x. split; [now right|exact Hp].
      * intros [x [[<-|Hx] Hp]]; [congruence|]. exists x. now split.
    + split; [|reflexivity]. intros _. exists a. split; [now left|exact E].
Qed.

Lemma nth_error_nth_lt {A : Type} (l : list A) (i : nat) (d : A) :
  i < length l -> nth_error l i = Some (nth i l d).
Proof.
  revert i. induction l as [|x l IH]; intros [|i] Hi; cbn in *; try lia;
    [reflexivity|].
  apply IH. lia.
Qed.
End CallResultFacts.

(** X15: the blank track of the state [__call__] returns obeys
    [r[t, 1] = logaddexp(r[t - 1, 0], r[t - 1, 1]) + log_probs[t, blank]]
    for every candidate and every frame [t] from [start] to [xlen - 1]. *)
Theorem call_blank_recursion :
  forall (F : Type) (N : LogNum F) (log_probs : list (list F)) (blank eos : nat)
         (uninit : nat -> nat -> nat -> F) (hyp cs : list nat) (r_prev : state),
    hyp <> [] ->
    start hyp <= xlen log_probs ->
    length r_prev = xlen log_probs ->
    Forall (fun row => blank < length row) log_probs ->
    Forall (fun row => Forall (fun c => c < length row) cs) log_probs ->
    exists log_psi sts,
      call log_probs blank eos uninit hyp cs r_prev = Some (log_psi, sts) /\
      forall i t,
        i < length cs ->
        start hyp <= t -> t < xlen log_probs ->
        let r := nth i sts [] in
        snd (row_of r t) =
        fadd (logaddexp (fst (row_of r (t - 1))) (snd (row_of r (t - 1))))
             (log_prob log_probs t blank).
Proof.
  intros F N log_probs blank eos uninit hyp cs r_prev Hne Hstart Hprev Hblank Hcs.
  eexists. eexists. split; [apply call_returns; assumption|].
  intros i t Hi Hlo Hhi. cbn zeta.
  assert (Hx : (xlen log_probs <=? start hyp) = false) by (apply Nat.leb_gt; lia).
  rewrite Hx, andb_false_r.
  destruct (@forward_loop _ _ log_probs blank uninit hyp cs r_prev Hstart
              (xlen log_probs - start hyp)) as [HT [_ [Hnb _]]]; [lia|].
  destruct (@forward_loop_blank _ _ log_probs blank uninit hyp cs r_prev Hstart
              (xlen log_probs - start hyp)) as [Hbl Hrec]; [lia|].
  set (st := fold_left _ _ _) in *.
  assert (Hs : 1 <= start hyp) by (unfold start; lia).
  rewrite !rollaxis_row by (try exact Hi; rewrite HT; lia). cbn [fst snd].
  rewrite (Hrec t) by lia.
  rewrite (nth_map_in _ _ _ zero)
    by (rewrite vmap2_length, Hnb, Hbl by lia; lia).
  rewrite vmap2_nth; [reflexivity| |].
  - rewrite Hnb by lia. exact Hi.
  - rewrite Hbl by lia. exact Hi.
Qed.

Lemma call_blank_recursion_witness :
  [2] <> [] /\
  start [2] <= xlen frames_A_blank_A /\
  length state_A_blank_A = xlen frames_A_blank_A /\
  Forall (fun row : list Z => 0 < length row) frames_A_blank_A /\
  Forall (fun row : list Z => Forall (fun c => c < length row) [1; 2])
         frames_A_blank_A /\
  exists log_psi sts,
    call frames_A_blank_A 0 2 (fun _ _ _ => 0%Z) [2] [1; 2] state_A_blank_A
    = Some (log_psi, sts) /\
    forall i t,
      i < length [1; 2] ->
      start [2] <= t -> t < xlen frames_A_blank_A ->
      let r := nth i sts [] in
      snd (row_of r t) =
      fadd (logaddexp (fst (row_of r (t - 1))) (snd (row_of r (t - 1))))
           (log_prob frames_A_blank_A t 0).
Proof.
  assert (H1 : [2] <> []) by discriminate.
  assert (H2 : start [2] <= xlen frames_A_blank_A) by (cbn; lia).
  assert (H3 : length state_A_blank_A = xlen frames_A_blank_A) by reflexivity.
  assert (H4 : Forall (fun row : list Z => 0 < length row) frames_A_blank_A).
  { repeat constructor; cbn; lia. }
  assert (H5 : Forall (fun row : list Z => Forall (fun c => c < length row) [1; 2])
                      frames_A_blank_A).
  { repeat constructor; cbn; lia. }
  split; [exact H1|]. split; [exact H2|]. split; [exact H3|].
  split; [exact H4|]. split; [exact H5|].
  exact (@call_blank_recursion Z MaxPlusZ frames_A_blank_A 0 2 (fun _ _ _ => 0%Z)
           [2] [1; 2] state_A_blank_A H1 H2 H3 H4 H5).
Defined.

(** X16: the score [__call__] returns for a candidate [c] other than the
    end of sentence is [log_probs[0, c]] for the prefix [sos] alone and
    [logzero] for a longer prefix, joined by [logaddexp], frame after frame
    from [start] to [xlen - 1], with [log_phi[t - 1] + log_probs[t, c]]. *)
Theorem call_prefix_score :
  forall (F : Type) (N : LogNum F) (log_probs : list (list F)) (blank eos : nat)
         (uninit : nat -> nat -> nat -> F) (hyp cs : list nat) (r_prev : state),
    hyp <> [] ->
    start hyp <= xlen log_probs ->
    length r_prev = xlen log_probs ->
    Forall (fun row => blank < length row) log_probs ->
    Forall (fun row => Forall (fun c => c < length row) cs) log_probs ->
    exists log_psi sts,
      call log_probs blank eos uninit hyp cs r_prev = Some (log_psi, sts) /\
      forall i c,
        nth_error cs i = Some c -> c <> eos ->
        nth_error log_psi i =
        Some (fold_left
                (fun acc t =>
                   logaddexp acc
                     (fadd (nth i (log_phi hyp cs r_prev (t - 1)) zero)
                           (log_prob log_probs t c)))
                (seq (start hyp) (xlen log_probs - start hyp))
                (if ylen hyp =? 0 then log_prob log_probs 0 c else logzero)).
Proof.
  intros F N log_probs blank eos uninit hyp cs r_prev Hne Hstart Hprev Hblank Hcs.
  eexists. eexists. split; [apply call_returns; assumption|].
  intros i c Hc Hceos.
  assert (Hi : i < length cs) by (apply nth_error_Some; congruence).
  pose proof (@r_init_start_row _ _ log_probs uninit hyp cs Hstart) as Hpsi0.
  set (psi0 := fst (srow (r_init log_probs uninit hyp cs) (start hyp - 1))) in *.
  rewrite (forward_psi log_probs blank hyp cs r_prev). cbn [snd].
  pose proof (@psi_loop_length _ _ log_probs hyp cs r_prev Hstart
                (seq (start hyp) (xlen log_probs - start hyp)) psi0 Hpsi0) as Hlen.
  assert (Hinit : nth i psi0 zero =
                  if ylen hyp =? 0 then log_prob log_probs 0 c else logzero).
  { apply (@r_init_start_values _ _ log_probs uninit hyp cs Hstart i c Hc). }
  assert (Hval : nth i (psi_loop log_probs hyp cs r_prev
                          (seq (start hyp) (xlen log_probs - start hyp)) psi0) zero =
                 fold_left
                   (fun acc t =>
                      logaddexp acc
                        (fadd (nth i (log_phi hyp cs r_prev (t - 1)) zero)
                              (log_prob log_probs t c)))
                   (seq (start hyp) (xlen log_probs - start hyp))
                   (if ylen hyp =? 0 then log_prob log_probs 0 c else logzero)).
  { rewrite (@psi_loop_nth _ _ log_probs hyp cs r_prev Hstart i c _ Hc psi0 Hpsi0).
    now rewrite Hinit. }
  destruct (existsb (Nat.eqb eos) cs).
  - rewrite (@set_eos_other _ _ eos _ cs _ i c Hlen Hc Hceos). now rewrite Hval.
  - rewrite (nth_error_nth_lt _ zero) by (rewrite Hlen; exact Hi). now rewrite Hval.
Qed.

Lemma call_prefix_score_witness :
  [2] <> [] /\
  start [2] <= xlen frames_A_blank_A /\
  length state_A_blank_A = xlen frames_A_blank_A /\
  Forall (fun row : list Z => 0 < length row) frames_A_blank_A /\
  Forall (fun row : list Z => Forall (fun c => c < length row) [1; 2])
         frames_A_blank_A /\
  exists log_psi sts,
    call frames_A_blank_A 0 2 (fun _ _ _ => 0%Z) [2] [1; 2] state_A_blank_A
    = Some (log_psi, sts) /\
    forall i c,
      nth_error [1; 2] i = Some c -> c <> 2 ->
      nth_error log_psi i =
      Some (fold_left
              (fun acc t =>
                 logaddexp acc
                   (fadd (nth i (log_phi [2] [1; 2] state_A_blank_A (t - 1)) zero)
                         (log_prob frames_A_blank_A t c)))
              (seq (start [2]) (xlen frames_A_blank_A - start [2]))
              (if ylen [2] =? 0 then log_prob frames_A_blank_A 0 c else logzero)).
Proof.
  assert (H1 : [2] <> []) by discriminate.
  assert (H2 : start [2] <= xlen frames_A_blank_A) by (cbn; lia).
  assert (H3 : length state_A_blank_A = xlen frames_A_blank_A) by reflexivity.
  assert (H4 : Forall (fun row : list Z => 0 < length row) frames_A_blank_A).
  { repeat constructor; cbn; lia. }
  assert (H5 : Forall (fun row : list Z => Forall (fun c => c < length row) [1; 2])
                      frames_A_blank_A).
  { repeat constructor; cbn; lia. }
  split; [exact H1|]. split; [exact H2|]. split; [exact H3|].
  split; [exact H4|]. split; [exact H5|].
  exact (@call_prefix_score Z MaxPlusZ frames_A_blank_A 0 2 (fun _ _ _ => 0%Z)
           [2] [1; 2] state_A_blank_A H1 H2 H3 H4 H5).
Defined.

(** X17: the states [__call__] returns fit the next call: there is one per
    candidate, each of [xlen] rows, and as long as the table is longer
    than the labels of the prefix, [__call__] on the prefix extended by a
    candidate, with the state returned for it, returns as well. *)
Theorem call_composes :
  forall (F : Type) (N : LogNum F) (log_probs : list (list F)) (blank eos : nat)
         (uninit : nat -> nat -> nat -> F) (hyp cs cs' : list nat) (r_prev : state),
    hyp <> [] ->
    length hyp <= xlen log_probs ->
    length r_prev = xlen log_probs ->
    Forall (fun row => blank < length row) log_probs ->
    Forall (fun row => Forall (fun c => c < length row) cs) log_probs ->
    Forall (fun row => Forall (fun c => c < length row) cs') log_probs ->
    exists log_psi sts,
      call log_probs blank eos uninit hyp cs r_prev = Some (log_psi, sts) /\
      length sts = length cs /\
      forall i c,
        nth_error cs i = Some c ->
        length (nth i sts []) = xlen log_probs /\
        exists next,
          call log_probs blank eos uninit (hyp ++ [c]) cs' (nth i sts []) = Some next.
Proof.
  intros F N log_probs blank eos uninit hyp cs cs' r_prev
         Hne Hlen Hprev Hblank Hcs Hcs'.
  assert (Hhyp : 1 <= length hyp) by (destruct hyp; [congruence|cbn; lia]).
  assert (Hstart : start hyp <= xlen log_probs) by (unfold start, ylen; lia).
  eexists. eexists. split; [apply call_returns; assumption|].
  split; [apply rollaxis_length|].
  intros i c Hc.
  assert (Hi : i < length cs) by (apply nth_error_Some; congruence).
  match goal with
  | |- length (nth i (rollaxis _ ?r) []) = _ /\ _ =>
      assert (Hr : length r = xlen log_probs)
  end.
  { destruct (existsb (Nat.eqb eos) cs && (xlen log_probs <=? start hyp));
      rewrite ?update_length, forward_keeps_length; cbn [fst];
      apply r_init_length; exact Hstart. }
  assert (Hst : forall r : states, length r = xlen log_probs ->
                  length (nth i (rollaxis (length cs) r) []) = xlen log_probs).
  { intros r Hlr. now rewrite rollaxis_state_length by exact Hi. }
  split; [apply Hst; exact Hr|].
  eexists. apply call_returns; try assumption.
  - destruct hyp; discriminate.
  - unfold start, ylen. rewrite length_app. cbn. lia.
  - apply Hst. exact Hr.
Qed.

Lemma call_composes_witness :
  [2] <> [] /\
  length [2] <= xlen frames_A_blank_A /\
  length state_A_blank_A = xlen frames_A_blank_A /\
  Forall (fun row : list Z => 0 < length row) frames_A_blank_A /\
  Forall (fun row : list Z => Forall (fun c => c < length row) [1; 2])
         frames_A_blank_A /\
  Forall (fun row : list Z => Forall (fun c => c < length row) [1])
         frames_A_blank_A /\
  exists log_psi sts,
    call frames_A_blank_A 0 2 (fun _ _ _ => 0%Z) [2] [1; 2] state_A_blank_A
    = Some (log_psi, sts) /\
    length sts = length [1; 2] /\
    forall i c,
      nth_error [1; 2] i = Some c ->
      length (nth i sts []) = xlen frames_A_blank_A /\
      exists next,
        call frames_A_blank_A 0 2 (fun _ _ _ => 0%Z) ([2] ++ [c]) [1] (nth i sts [])
        = Some next.
Proof.
  assert (H1 : [2] <> []) by discriminate.
  assert (H2 : length [2] <= xlen frames_A_blank_A) by (cbn; lia).
  assert (H3 : length state_A_blank_A = xlen frames_A_blank_A) by reflexivity.
  assert (H4 : Forall (fun row : list Z => 0 < length row) frames_A_blank_A).
  { repeat constructor; cbn; lia. }
  assert (H5 : Forall (fun row : list Z => Forall (fun c => c < length row) [1; 2])
                      frames_A_blank_A).
  { repeat constructor; cbn; lia. }
  assert (H6 : Forall (fun row : list Z => Forall (fun c => c < length row) [1])
                      frames_A_blank_A).
  { repeat constructor; cbn; lia. }
  split; [exact H1|]. split; [exact H2|]. split; [exact H3|].
  split; [exact H4|]. split; [exact H5|]. split; [exact H6|].
  exact (@call_composes Z MaxPlusZ frames_A_blank_A 0 2 (fun _ _ _ => 0%Z)
           [2] [1; 2] [1] state_A_blank_A H1 H2 H3 H4 H5 H6).
Defined.

(** X18: the state [initial_state] returns is accepted by the first call:
    on a table of at least one frame, [__call__] with the prefix of the
    start-of-sentence label alone and that state returns. *)
Theorem initial_state_then_call :
  forall (F : Type) (N : LogNum F) (log_probs : list (list F)) (blank eos : nat)
         (uninit : nat -> nat -> nat -> F) (sos : nat) (cs : list nat),
    1 <= xlen log_probs ->
    Forall (fun row => blank < length row) log_probs ->
    Forall (fun row => Forall (fun c => c < length row) cs) log_probs ->
    exists r result,
      initial_state log_probs blank = Some r /\
      call log_probs blank eos uninit [sos] cs r = Some result.
Proof.
  intros F N log_probs blank eos uninit sos cs Hx Hblank Hcs.
  unfold initial_state. rewrite (in_frames_blank 0 Hblank).
  destruct (xlen log_probs) as [|n] eqn:E; [lia|].
  eexists. eexists. split; [reflexivity|].
  replace (S n - 1) with n by lia.
  destruct (initial_state_loop log_probs blank (m := n)) as [Hlen _]; [lia|].
  rewrite E in Hlen.
  apply call_returns; try assumption.
  - discriminate.
  - unfold start, ylen. cbn. lia.
  - rewrite E. exact Hlen.
Qed.

Lemma initial_state_then_call_witness :
  1 <= xlen frames_A_blank_A /\
  Forall (fun row : list Z => 0 < length row) frames_A_blank_A /\
  Forall (fun row : list Z => Forall (fun c => c < length row) [1; 2])
         frames_A_blank_A /\
  exists r result,
    initial_state frames_A_blank_A 0 = Some r /\
    call frames_A_blank_A 0 2 (fun _ _ _ => 0%Z) [2] [1; 2] r = Some result.
Proof.
  assert (H1 : 1 <= xlen frames_A_blank_A) by (cbn; lia).
  assert (H4 : Forall (fun row : list Z => 0 < length row) frames_A_blank_A).
  { repeat constructor; cbn; lia. }
  assert (H5 : Forall (fun row : list Z => Forall (fun c => c < length row) [1; 2])
                      frames_A_blank_A).
  { repeat constructor; cbn; lia. }
  split; [exact H1|]. split; [exact H4|]. split; [exact H5|].
  exact (@initial_state_then_call Z MaxPlusZ frames_A_blank_A 0 2 (fun _ _ _ => 0%Z)
           2 [1; 2] H1 H4 H5).
Defined.

(** X19: [__call__] never writes the rows of the new state before
    [ylen - 1]: for a prefix of two labels or more, the state it returns
    holds there what [np.ndarray] found in memory. *)
Theorem call_leaves_early_rows_unwritten :
  forall (F : Type) (N : LogNum F) (log_probs : list (list F)) (blank eos : nat)
         (uninit : nat -> nat -> nat -> F) (hyp cs : list nat) (r_prev : state),
    hyp <> [] ->
    start hyp <= xlen log_probs ->
    length r_prev = xlen log_probs ->
    Forall (fun row => blank < length row) log_probs ->
    Forall (fun row => Forall (fun c => c < length row) cs) log_probs ->
    exists log_psi sts,
      call log_probs blank eos uninit hyp cs r_prev = Some (log_psi, sts) /\
      forall i t,
        i < length cs -> t < ylen hyp - 1 ->
        row_of (nth i sts []) t = (uninit t 0 i, uninit t 1 i).
Proof.
  intros F N log_probs blank eos uninit hyp cs r_prev Hne Hstart Hprev Hblank Hcs.
  eexists. eexists. split; [apply call_returns; assumption|].
  intros i t Hi Ht.
  assert (Hs : start hyp = ylen hyp) by (unfold start; lia).
  assert (HT : t < xlen log_probs) by lia.
  set (st := fold_left _ _ _).
  assert (Hst : srow (fst st) t = srow (r_alloc log_probs uninit cs) t).
  { unfold st. rewrite forward_keeps_other_rows by (rewrite in_seq; lia).
    cbn [fst]. unfold r_init.
    destruct (Nat.eqb_spec (ylen hyp) 0) as [E|E]; [lia|].
    unfold srow. apply nth_update_other. lia. }
  assert (Hlen : length (fst st) = xlen log_probs).
  { unfold st. rewrite forward_keeps_length. cbn [fst]. now apply r_init_length. }
  assert (Hrow : srow (r_alloc log_probs uninit cs) t =
                 (map (uninit t 0) (seq 0 (length cs)),
                  map (uninit t 1) (seq 0 (length cs)))).
  { unfold srow, r_alloc.
    rewrite (nth_map_in _ _ _ 0) by (rewrite length_seq; exact HT).
    now rewrite seq_nth by exact HT. }
  assert (Hval : forall r : states,
             length r = xlen log_probs ->
             srow r t = srow (r_alloc log_probs uninit cs) t ->
             row_of (nth i (rollaxis (length cs) r) []) t =
             (uninit t 0 i, uninit t 1 i)).
  { intros r Hr Hrt. rewrite rollaxis_row by (try exact Hi; rewrite Hr; exact HT).
    rewrite Hrt, Hrow. cbn [fst snd].
    rewrite !(nth_map_in _ _ _ 0) by (rewrite length_seq; exact Hi).
    now rewrite seq_nth by exact Hi. }
  destruct (existsb (Nat.eqb eos) cs && (xlen log_probs <=? start hyp)).
  - apply Hval; [now rewrite update_length|].
    rewrite <- Hst. unfold srow. apply nth_update_other. lia.
  - apply Hval; assumption.
Qed.

Lemma call_leaves_early_rows_unwritten_witness :
  [2; 1; 1] <> [] /\
  start [2; 1; 1] <= xlen frames_A_blank_A /\
  length state_A_blank_A = xlen frames_A_blank_A /\
  Forall (fun row : list Z => 0 < length row) frames_A_blank_A /\
  Forall (fun row : list Z => Forall (fun c => c < length row) [1; 2])
         frames_A_blank_A /\
  exists log_psi sts,
    call frames_A_blank_A 0 2 (fun t k i => Z.of_nat (t + k + i)) [2; 1; 1] [1; 2]
         state_A_blank_A = Some (log_psi, sts) /\
    forall i t,
      i < length [1; 2] -> t < ylen [2; 1; 1] - 1 ->
      row_of (nth i sts []) t = (Z.of_nat (t + 0 + i), Z.of_nat (t + 1 + i)).
Proof.
  assert (H1 : [2; 1; 1] <> []) by discriminate.
  assert (H2 : start [2; 1; 1] <= xlen frames_A_blank_A) by (cbn; lia).
  assert (H3 : length state_A_blank_A = xlen frames_A_blank_A) by reflexivity.
  assert (H4 : Forall (fun row : list Z => 0 < length row) frames_A_blank_A).
  { repeat constructor; cbn; lia. }
  assert (H5 : Forall (fun row : list Z => Forall (fun c => c < length row) [1; 2])
                      frames_A_blank_A).
  { repeat constructor; cbn; lia. }
  split; [exact H1|]. split; [exact H2|]. split; [exact H3|].
  split; [exact H4|]. split; [exact H5|].
  exact (@call_leaves_early_rows_unwritten Z MaxPlusZ frames_A_blank_A 0 2
           (fun t k i => Z.of_nat (t + k + i)) [2; 1; 1] [1; 2] state_A_blank_A
           H1 H2 H3 H4 H5).
Defined.

(** X20: row [start - 1] of the state [__call__] returns.  Its blank entry
    is [logzero]; its non-blank entry for a candidate [c] is
    [log_probs[0, c]] for the prefix [sos] alone and [logzero] for a longer
    one, except on a table of exactly [start] frames, where the loop runs
    no step and the score written for an end-of-sentence candidate,
    [logaddexp(r_prev[xlen - 1, 0], r_prev[xlen - 1, 1])], lands in the
    state as well. *)
Theorem call_start_row :
  forall (F : Type) (N : LogNum F) (log_probs : list (list F)) (blank eos : nat)
         (uninit : nat -> nat -> nat -> F) (hyp cs : list nat) (r_prev : state),
    hyp <> [] ->
    start hyp <= xlen log_probs ->
    length r_prev = xlen log_probs ->
    Forall (fun row => blank < length row) log_probs ->
    Forall (fun row => Forall (fun c => c < length row) cs) log_probs ->
    exists log_psi sts,
      call log_probs blank eos uninit hyp cs r_prev = Some (log_psi, sts) /\
      forall i c,
        nth_error cs i = Some c ->
        snd (row_of (nth i sts []) (start hyp - 1)) = logzero /\
        fst (row_of (nth i sts []) (start hyp - 1)) =
        if (c =? eos) && (xlen log_probs <=? start hyp)
        then logaddexp (fst (row_of r_prev (xlen log_probs - 1)))
                       (snd (row_of r_prev (xlen log_probs - 1)))
        else if ylen hyp =? 0 then log_prob log_probs 0 c else logzero.
Proof.
  intros F N log_probs blank eos uninit hyp cs r_prev Hne Hstart Hprev Hblank Hcs.
  eexists. eexists. split; [apply call_returns; assumption|].
  intros i c Hc.
  assert (Hi : i < length cs) by (apply nth_error_Some; congruence).
  assert (Hs : 1 <= start hyp) by (unfold start; lia).
  destruct (@r_init_start_values _ _ log_probs uninit hyp cs Hstart i c Hc)
    as [Hfst Hsnd].
  pose proof (@r_init_start_row _ _ log_probs uninit hyp cs Hstart) as Hpsi0.
  set (st := fold_left _ _ _).
  assert (Hlen : length (fst st) = xlen log_probs).
  { unfold st. rewrite forward_keeps_length. cbn [fst]. now apply r_init_length. }
  assert (Hst : srow (fst st) (start hyp - 1) =
                srow (r_init log_probs uninit hyp cs) (start hyp - 1)).
  { unfold st. now rewrite forward_keeps_other_rows by (rewrite in_seq; lia). }
  destruct (existsb (Nat.eqb eos) cs) eqn:Eeos; cbn [andb].
  - destruct (Nat.leb_spec (xlen log_probs) (start hyp)) as [Hle|Hgt].
    + rewrite rollaxis_row by (try exact Hi; rewrite update_length, Hlen; lia).
      assert (Hup : forall f : list F * list F -> list F * list F,
                 srow (update (fst st) (start hyp - 1) f) (start hyp - 1) =
                 f (srow (fst st) (start hyp - 1))).
      { intros f. unfold srow. apply nth_update_same. rewrite Hlen. lia. }
      rewrite Hup. cbn [fst snd]. rewrite Hst.
      split; [exact Hsnd|].
      assert (Hst0 : snd st = fst (srow (r_init log_probs uninit hyp cs)
                                        (start hyp - 1))).
      { unfold st. replace (xlen log_probs - start hyp) with 0 by lia.
        reflexivity. }
      rewrite Hst0. rewrite andb_true_r.
      destruct (Nat.eqb_spec c eos) as [->|Hce].
      * apply nth_error_nth.
        now apply set_eos_at_eos.
      * rewrite <- Hfst. apply nth_error_nth.
        now apply (@set_eos_other _ _ eos _ cs _ i c).
    + rewrite andb_false_r.
      rewrite rollaxis_row by (try exact Hi; rewrite Hlen; lia).
      rewrite Hst. split; [exact Hsnd|exact Hfst].
  - rewrite rollaxis_row by (try exact Hi; rewrite Hlen; lia).
    rewrite Hst. split; [exact Hsnd|].
    destruct (Nat.eqb_spec c eos) as [->|Hce]; [|exact Hfst].
    assert (Hex : existsb (Nat.eqb eos) cs = true).
    { apply existsb_exists. exists eos. split.
      - eapply nth_error_In; exact Hc.
      - apply Nat.eqb_refl. }
    congruence.
Qed.

Lemma call_start_row_witness :
  [2] <> [] /\
  start [2] <= xlen [frame_blank] /\
  length [(logzero, 0%Z)] = xlen [frame_blank] /\
  Forall (fun row : list Z => 0 < length row) [frame_blank] /\
  Forall (fun row : list Z => Forall (fun c => c < length row) [1; 2])
         [frame_blank] /\
  exists log_psi sts,
    call [frame_blank] 0 2 (fun _ _ _ => 0%Z) [2] [1; 2] [(logzero, 0%Z)]
    = Some (log_psi, sts) /\
    forall i c,
      nth_error [1; 2] i = Some c ->
      snd (row_of (nth i sts []) (start [2] - 1)) = logzero /\
      fst (row_of (nth i sts []) (start [2] - 1)) =
      if (c =? 2) && (xlen [frame_blank] <=? start [2])
      then logaddexp (fst (row_of [(logzero, 0%Z)] (xlen [frame_blank] - 1)))
                     (snd (row_of [(logzero, 0%Z)] (xlen [frame_blank] - 1)))
      else if ylen [2] =? 0 then log_prob [frame_blank] 0 c else logzero.
Proof.
  assert (H1 : [2] <> []) by discriminate.
  assert (H2 : start [2] <= xlen [frame_blank]) by (cbn; lia).
  assert (H3 : length [(logzero, 0%Z)] = xlen [frame_blank]) by reflexivity.
  assert (H4 : Forall (fun row : list Z => 0 < length row) [frame_blank]).
  { repeat constructor; cbn; lia. }
  assert (H5 : Forall (fun row : list Z => Forall (fun c => c < length row) [1; 2])
                      [frame_blank]).
  { repeat constructor; cbn; lia. }
  split; [exact H1|]. split; [exact H2|]. split; [exact H3|].
  split; [exact H4|]. split; [exact H5|].
  exact (@call_start_row Z MaxPlusZ [frame_blank] 0 2 (fun _ _ _ => 0%Z)
           [2] [1; 2] [(logzero, 0%Z)] H1 H2 H3 H4 H5).
Defined.

(** The call on one frame, evaluated: the state returned for the end of
    sentence holds its score 0, not [log_probs[0, eos]] = -900. *)
Example call_on_one_frame :
  call [frame_blank] 0 2 (fun _ _ _ => 0%Z) [2] [1; 2] [(logzero, 0%Z)]
  = Some ([-800; 0]%Z,
          [ [(-800, -10000000000)]; [(0, -10000000000)] ]%Z).
Proof. vm_compute. reflexivity. Qed.

(** X21: [initial_state] raises exactly on the table of no frame and on a
    table with a frame of which blank is not a label. *)
Theorem initial_state_raises_iff :
  forall (F : Type) (N : LogNum F) (log_probs : list (list F)) (blank : nat),
    initial_state log_probs blank = None <->
    xlen log_probs = 0 \/ exists row, In row log_probs /\ length row <= blank.
Proof.
  intros F N log_probs blank.
  assert (Hframes : in_frames log_probs 0 [blank] = false <->
                    exists row, In row log_probs /\ length row <= blank).
  { unfold in_frames. cbn [skipn]. rewrite forallb_false. split.
    - intros [row [Hrow Hb]]. exists row. split; [exact Hrow|].
      cbn [forallb] in Hb. rewrite andb_true_r in Hb. now apply Nat.ltb_ge.
    - intros [row [Hrow Hb]]. exists row. split; [exact Hrow|].
      cbn [forallb]. rewrite andb_true_r. now apply Nat.ltb_ge. }
  unfold initial_state. destruct (xlen log_probs) as [|n] eqn:E.
  - split; [now left|reflexivity].
  - destruct (in_frames log_probs 0 [blank]) eqn:Ef.
    + split; [discriminate|]. intros [Hx|Hrow]; [discriminate|].
      apply Hframes in Hrow. discriminate.
    + split; [|reflexivity]. intros _. right. now apply Hframes.
Qed.

(** ** The layers before the softmax *)

Section OutputLayerFacts.
Context {V : Type}.

Lemma od_set_new (od : list (nat * V)) (k : nat) (v : V) :
  Forall (fun kv => fst kv <> k) od -> od_set od k v = od ++ [(k, v)].
Proof.
  induction 1 as [|[k' v'] od Hk _ IH]; cbn; [reflexivity|].
  cbn in Hk. destruct (Nat.eqb_spec k' k) as [E|_]; [contradiction|].
  now rewrite IH.
Qed.

Lemma od_fill (f : nat -> V) (n : nat) :
  fold_left (fun od i => od_set od i (f i)) (seq 0 n) [] =
  map (fun i => (i, f i)) (seq 0 n).
Proof.
  induction n as [|n IH]; [reflexivity|].
  rewrite seq_S, fold_left_app, map_app, IH. cbn [fold_left map Nat.add].
  apply od_set_new. apply Forall_forall. intros kv Hkv.
  apply in_map_iff in Hkv. destruct Hkv as [i [<- Hi]]. apply in_seq in Hi.
  cbn. lia.
Qed.
End OutputLayerFacts.

Lemma last_cons_default (l : list nat) :
  forall x d, last (x :: l) d = last l x.
Proof.
  induction l as [|y l IH]; intros x d; [reflexivity|].
  change (last (x :: y :: l) d) with (last (y :: l) d).
  now rewrite (IH y d), (IH y x).
Qed.

Lemma fc_layers_sizes (vocab : nat) (fc_list : list nat) :
  forall d,
    map (fun i => (if i =? 0 then d else nth (i - 1) fc_list 0, nth i fc_list 0))
        (seq 0 (length fc_list)) ++ [(last fc_list d, vocab)] =
    layer_sizes d fc_list vocab.
Proof.
  induction fc_list as [|f rest IH]; intros d; [reflexivity|].
  cbn [length seq map Nat.eqb nth layer_sizes app]. f_equal.
  rewrite <- (IH f). f_equal.
  - rewrite <- seq_shift, map_map. apply map_ext. intros i.
    cbn [Nat.eqb Nat.sub]. rewrite Nat.sub_0_r.
    destruct i as [|i]; cbn [Nat.eqb nth Nat.sub]; [reflexivity|].
    now rewrite Nat.sub_0_r.
  - f_equal. f_equal. apply last_cons_default.
Qed.

Lemma layer_sizes_chained (vocab : nat) (fc_list : list nat) :
  forall d, chained d (layer_sizes d fc_list vocab) vocab.
Proof.
  induction fc_list as [|f rest IH]; intros d; cbn.
  - split; reflexivity.
  - split; [reflexivity|apply IH].
Qed.

Lemma layer_sizes_length (vocab : nat) (fc_list : list nat) :
  forall d, length (layer_sizes d fc_list vocab) = S (length fc_list).
Proof.
  induction fc_list as [|f rest IH]; intros d; cbn; [reflexivity|].
  now rewrite IH.
Qed.

Lemma output_layers_sizes (enc_n_units vocab : nat) (fc_list : list nat) :
  output_layers enc_n_units vocab fc_list = layer_sizes enc_n_units fc_list vocab.
Proof.
  unfold output_layers, fc_layers.
  destruct fc_list as [|f rest] eqn:E; [reflexivity|]. rewrite <- E.
  assert (Hlen : (0 <? length fc_list) = true) by (subst; reflexivity).
  rewrite Hlen.
  rewrite (od_fill (fun i => (if i =? 0 then enc_n_units else nth (i - 1) fc_list 0,
                              nth i fc_list 0))).
  rewrite od_set_new.
  - rewrite map_app, map_map. cbn [map snd].
    rewrite <- (fc_layers_sizes vocab fc_list enc_n_units).
    f_equal. f_equal. f_equal. subst. now rewrite !last_cons_default.
  - apply Forall_forall. intros kv Hkv.
    apply in_map_iff in Hkv. destruct Hkv as [i [<- Hi]]. apply in_seq in Hi.
    cbn. lia.
Qed.

(** X22: the layers [CTC.__init__] puts before the softmax compose: there
    is one more than [fc_list] has sizes, the first takes the encoder
    output ([enc_n_units]), each next one takes what the one before gives,
    and the last gives [vocab]. *)
Theorem output_layers_compose :
  forall (enc_n_units vocab : nat) (fc_list : list nat),
    length (output_layers enc_n_units vocab fc_list) = S (length fc_list) /\
    chained enc_n_units (output_layers enc_n_units vocab fc_list) vocab.
Proof.
  intros enc_n_units vocab fc_list. rewrite output_layers_sizes. split.
  - apply layer_sizes_length.
  - apply layer_sizes_chained.
Qed.

(** The layers for an encoder of 320 units, [fc_list = [256, 128]] and 40
    labels. *)
Example output_layers_320_256_128_40 :
  output_layers 320 40 [256; 128] = [(320, 256); (256, 128); (128, 40)].
Proof. reflexivity. Qed.

(** ** Transcripts *)

Section TranscriptFacts.

Lemma subseq_refl (s : list nat) : subseq s s.
Proof. induction s; constructor; assumption. Qed.

Lemma subseq_trans (a b c : list nat) :
  subseq a b -> subseq b c -> subseq a c.
Proof.
  intros Hab Hbc. revert a Hab.
  induction Hbc as [|x b c Hbc IH|x b c Hbc IH]; intros a Hab.
  - exact Hab.
  - apply subseq_skip. now apply IH.
  - inversion Hab as [|y a' b' Hab'|y a' b' Hab']; subst.
    + apply subseq_skip. now apply IH.
    + apply subseq_keep. now apply IH.
Qed.

Lemma subseq_In (out s : list nat) (c : nat) :
  subseq out s -> In c out -> In c s.
Proof.
  induction 1 as [|x out s _ IH|x out s _ IH]; intros Hc.
  - exact Hc.
  - right. now apply IH.
  - destruct Hc as [->|Hc]; [now left|right; now apply IH].
Qed.

Lemma remove_from_subseq (old s : list nat) :
  forall skip, subseq (remove_from old skip s) s.
Proof.
  induction s as [|c s IH]; intros skip; [constructor|].
  cbn [remove_from]. destruct skip as [|k].
  - destruct (starts_with old (c :: s)).
    + apply subseq_skip, IH.
    + apply subseq_keep, IH.
  - apply subseq_skip, IH.
Qed.

Lemma sub_runs_delete (cls : nat -> bool) (s : list nat) :
  forall in_run, sub_runs cls [] in_run s = filter (fun c => negb (cls c)) s.
Proof.
  induction s as [|c s IH]; intros in_run; [reflexivity|].
  cbn [sub_runs filter]. destruct (cls c); cbn [negb app].
  - destruct in_run; apply IH.
  - f_equal. apply IH.
Qed.

Lemma filter_subseq (p : nat -> bool) (s : list nat) : subseq (filter p s) s.
Proof.
  induction s as [|c s IH]; cbn; [constructor|].
  destruct (p c); constructor; exact IH.
Qed.

Lemma collapse_subseq (s : list nat) :
  forall in_run, subseq (sub_runs underscore [95] in_run s) s.
Proof.
  induction s as [|c s IH]; intros in_run; [constructor|].
  cbn [sub_runs].
  assert (Hu : underscore c = (c =? 95)) by reflexivity. rewrite Hu.
  destruct (Nat.eqb_spec c 95) as [->|Hc].
  - destruct in_run; cbn [app].
    + apply subseq_skip, IH.
    + apply subseq_keep, IH.
  - apply subseq_keep, IH.
Qed.

Lemma adjacent_underscores_cons (c d : nat) (rest : list nat) :
  adjacent_underscores (c :: d :: rest) =
  ((c =? 95) && (d =? 95)) || adjacent_underscores (d :: rest).
Proof. reflexivity. Qed.

Lemma collapse_no_adjacent (s : list nat) :
  forall in_run,
    adjacent_underscores (sub_runs underscore [95] in_run s) = false /\
    (in_run = true -> hd_error (sub_runs underscore [95] in_run s) <> Some 95).
Proof.
  induction s as [|c s IH]; intros in_run.
  - split; [reflexivity|]. intros _. discriminate.
  - cbn [sub_runs].
    assert (Hu : underscore c = (c =? 95)) by reflexivity. rewrite Hu.
    destruct (Nat.eqb_spec c 95) as [->|Hc].
    + destruct in_run; cbn [app].
      * apply IH.
      * split; [|discriminate].
        destruct (IH true) as [Hadj Hhd]. specialize (Hhd eq_refl).
        destruct (sub_runs underscore [95] true s) as [|d rest]; [reflexivity|].
        rewrite adjacent_underscores_cons, Hadj. cbn in Hhd.
        destruct (Nat.eqb_spec d 95) as [->|Hd]; [congruence|].
        reflexivity.
    + split; [|intros _; cbn; congruence].
      destruct (IH false) as [Hadj _].
      destruct (sub_runs underscore [95] false s) as [|d rest]; [reflexivity|].
      rewrite adjacent_underscores_cons, Hadj.
      destruct (Nat.eqb_spec c 95) as [E|_]; [contradiction|]. reflexivity.
Qed.

Lemma strip_first_subseq (s : list nat) : subseq (strip_first s) s.
Proof.
  destruct s as [|c s]; [constructor|]. cbn.
  destruct (c =? 95); [apply subseq_skip|]; apply subseq_refl.
Qed.

Lemma strip_first_clean (s : list nat) :
  adjacent_underscores s = false ->
  adjacent_underscores (strip_first s) = false /\
  hd_error (strip_first s) <> Some 95.
Proof.
  intros Hadj. destruct s as [|c s]; [split; [reflexivity|discriminate]|].
  cbn [strip_first]. destruct (Nat.eqb_spec c 95) as [->|Hc].
  - destruct s as [|d s]; [split; [reflexivity|discriminate]|].
    rewrite adjacent_underscores_cons in Hadj. apply orb_false_elim in Hadj.
    destruct Hadj as [Hd Hadj]. split; [exact Hadj|].
    cbn. intros [= ->]. discriminate.
  - split; [exact Hadj|]. cbn. congruence.
Qed.

Lemma strip_last_snoc (l : list nat) (x : nat) :
  strip_last (l ++ [x]) = if x =? 95 then l else l ++ [x].
Proof.
  unfold strip_last. destruct (l ++ [x]) as [|y r] eqn:E.
  - destruct l; discriminate.
  - rewrite <- E. now rewrite last_last, removelast_last.
Qed.

Lemma adjacent_underscores_snoc (l : list nat) (x : nat) :
  adjacent_underscores (l ++ [x]) = false ->
  adjacent_underscores l = false /\
  (x = 95 -> l <> [] -> last l 0 <> 95).
Proof.
  induction l as [|c l IH]; intros Hadj.
  - split; [reflexivity|]. intros _ Hne. congruence.
  - destruct l as [|d l].
    + cbn [app] in Hadj. rewrite adjacent_underscores_cons in Hadj.
      apply orb_false_elim in Hadj. destruct Hadj as [Hcx _].
      split; [reflexivity|]. intros -> _. cbn [last]. intros ->. discriminate.
    + cbn [app] in Hadj. rewrite adjacent_underscores_cons in Hadj.
      apply orb_false_elim in Hadj. destruct Hadj as [Hcd Hrest].
      change (d :: l ++ [x]) with ((d :: l) ++ [x]) in Hrest.
      destruct (IH Hrest) as [Hl Hlast]. split.
      * now rewrite adjacent_underscores_cons, Hcd, Hl.
      * intros Hx _. change (last (c :: d :: l) 0) with (last (d :: l) 0).
        apply Hlast; [exact Hx|discriminate].
Qed.

Lemma snoc_or_nil (s : list nat) : s = [] \/ exists l x, s = l ++ [x].
Proof.
  induction s as [|x l _] using rev_ind; [now left|right].
  now exists l, x.
Qed.

Lemma strip_last_subseq (s : list nat) : subseq (strip_last s) s.
Proof.
  destruct (snoc_or_nil s) as [->|[l [x ->]]]; [constructor|].
  rewrite strip_last_snoc. destruct (x =? 95); [|apply subseq_refl].
  induction l as [|c l IH]; cbn [app].
  - apply subseq_skip, subseq_nil.
  - apply subseq_keep, IH.
Qed.

Lemma strip_last_clean (s : list nat) :
  adjacent_underscores s = false ->
  hd_error s <> Some 95 ->
  adjacent_underscores (strip_last s) = false /\
  hd_error (strip_last s) <> Some 95 /\
  (strip_last s <> [] -> last (strip_last s) 0 <> 95).
Proof.
  intros Hadj Hhd.
  destruct (snoc_or_nil s) as [->|[l [x ->]]].
  - cbn. repeat split; [discriminate|congruence].
  - rewrite strip_last_snoc.
    destruct (adjacent_underscores_snoc l x Hadj) as [Hl Hlast].
    destruct (Nat.eqb_spec x 95) as [Hx|Hx].
    + repeat split; [exact Hl| |now apply Hlast].
      destruct l as [|c l]; [discriminate|exact Hhd].
    + repeat split; [exact Hadj|exact Hhd|]. intros _. now rewrite last_last.
Qed.

Lemma str_remove_subseq (old s : list nat) : subseq (str_remove old s) s.
Proof. apply remove_from_subseq. Qed.

Lemma postprocess_stages (s : list nat) :
  exists s1 s2,
    subseq s1 s /\
    s2 = filter (fun c => negb (garbage c)) s1 /\
    postprocess s = strip_last (strip_first (sub_runs underscore [95] false s2)).
Proof.
  eexists. eexists. split; [|split; [reflexivity|]].
  2: { unfold postprocess, re_sub_class. rewrite sub_runs_delete. reflexivity. }
  eapply subseq_trans; [apply str_remove_subseq|].
  eapply subseq_trans; [apply str_remove_subseq|].
  eapply subseq_trans; [apply str_remove_subseq|].
  apply str_remove_subseq.
Qed.

(** X23: whatever the transcript, the string [decode] prints from has no
    character of the class [['-<>]] (the characters from ['] to [<], the
    digits among them, and [>]), no two underscores in a row, and no
    underscore at its start or at its end. *)
Theorem postprocess_normalised :
  forall s : list nat,
    (forall c, In c (postprocess s) -> ~ (39 <= c <= 60) /\ c <> 62) /\
    adjacent_underscores (postprocess s) = false /\
    hd_error (postprocess s) <> Some 95 /\
    (postprocess s <> [] -> last (postprocess s) 0 <> 95).
Proof.
  intros s. destruct (postprocess_stages s) as (s1 & s2 & _ & Hs2 & ->).
  destruct (collapse_no_adjacent s2 false) as [Hadj _].
  destruct (strip_first_clean _ Hadj) as [Hadj1 Hhd1].
  destruct (strip_last_clean _ Hadj1 Hhd1) as (Hadj2 & Hhd2 & Hlast).
  repeat split; try assumption.
  - intros Hc.
    assert (Hin : In c s2).
    { eapply subseq_In; [|exact H].
      eapply subseq_trans; [apply strip_last_subseq|].
      eapply subseq_trans; [apply strip_first_subseq|].
      apply collapse_subseq. }
    rewrite Hs2 in Hin. apply filter_In in Hin. destruct Hin as [_ Hg].
    unfold garbage in Hg. apply negb_true_iff, orb_false_elim in Hg.
    destruct Hg as [Hg _]. apply andb_false_iff in Hg.
    destruct Hg as [Hg|Hg]; apply Nat.leb_gt in Hg; lia.
  - intros ->.
    assert (Hin : In 62 s2).
    { eapply subseq_In; [|exact H].
      eapply subseq_trans; [apply strip_last_subseq|].
      eapply subseq_trans; [apply strip_first_subseq|].
      apply collapse_subseq. }
    rewrite Hs2 in Hin. apply filter_In in Hin. destruct Hin as [_ Hg].
    discriminate.
Qed.

(** X24: the post-processing of [decode] only deletes: the string it
    prints from is the transcript with some characters left out, the others
    in their order; it inserts and replaces nothing. *)
Theorem postprocess_only_deletes :
  forall s : list nat, subseq (postprocess s) s.
Proof.
  intros s. destruct (postprocess_stages s) as (s1 & s2 & Hs1 & Hs2 & ->).
  eapply subseq_trans; [apply strip_last_subseq|].
  eapply subseq_trans; [apply strip_first_subseq|].
  eapply subseq_trans; [apply collapse_subseq|].
  rewrite Hs2. eapply subseq_trans; [apply filter_subseq|exact Hs1].
Qed.
End TranscriptFacts.
